(** * FROST threshold signatures of Frost-IAM (scripts/frost-crypto.js)

    A shallow embedding of the class [FrostSignature] and of the parts of
    its three libraries it calls: bn.js (big integers), Node's crypto
    (SHA-256 and the random source) and elliptic (the curve secp256k1);
    and of the signing helpers of the class [ByzantineTester]
    (scripts/byzantine-test.js), which call it.

    Integers are [Z]; a hexadecimal string is a [string]; the random source
    is a finite tape of bytes threaded through the methods that draw from
    it; a JavaScript exception is an outcome of its own. *)

From Stdlib Require Import ZArith List Lia Bool String Ascii.
From Stdlib.Strings Require Import Byte.
From Stdlib Require Import Zcong Znumtheory HexString DecimalString Permutation.
From Stdlib Require Import Morphisms RelationClasses Setoid.
Import ListNotations.
Open Scope string_scope.
Open Scope list_scope.
Open Scope Z_scope.

(* ================================================================== *)
(** * Part I: the program *)
(* ================================================================== *)

(** ** JavaScript strings *)

Module JsString.

(** [s.padStart(targetLength, "0")] *)
Definition padStart (targetLength : nat) (fill : ascii) (s : string) : string :=
  (string_of_list_ascii (repeat fill (targetLength - String.length s)) ++ s)%string.

(** a number inside a template literal, for an integer below [2^53] in
    absolute value, which JavaScript prints digit by digit *)
Definition ofNumber (z : Z) : string := NilZero.string_of_int (Z.to_int z).

End JsString.

(** ** bn.js *)

Module BN.

(** The value of one character of a hexadecimal string, as bn.js 4.12
    reads it ([parseHex4Bits]). *)
Definition parseHex4Bits (ch : ascii) : Z :=
  let c := Z.of_N (N_of_ascii ch) in
  if (65 <=? c) && (c <=? 70) then c - 55
  else if (97 <=? c) && (c <=? 102) then c - 87
  else Z.land (c - 48) 15.

Fixpoint parseHex (s : string) (acc : Z) : Z :=
  match s with
  | EmptyString => acc
  | String ch s' => parseHex s' (16 * acc + parseHex4Bits ch)
  end.

(** [new BN(s, 16)]: an optional sign, then the digits.  The strings the
    program writes itself are of this form; white space and a sign with no
    digit after it are not modelled. *)
Definition ofHex (s : string) : Z :=
  match s with
  | String "-" s' => - parseHex s' 0
  | _ => parseHex s 0
  end.

(** [a.toString('hex')]: lower-case digits, no leading zero, a sign for
    a negative number. *)
Definition toString16 (a : Z) : string :=
  match a with
  | Z0 => "0"
  | Zpos p => HexString.Raw.of_pos p ""
  | Zneg p => String "-" (HexString.Raw.of_pos p "")
  end.

(** [a.mod(m)] keeps the sign of [a]; [a.umod(m)] is never negative. *)
Definition mod_ (a m : Z) : Z := Z.rem a m.
Definition umod (a m : Z) : Z := a mod m.

(** [a.invm(m)]: the inverse of [a] modulo [m] in [0, m), taken on the
    residue of [a]; [0] for a multiple of a prime [m]. *)
Definition invm (a m : Z) : Z := Z.invmod a m.

Definition gte (a b : Z) : bool := b <=? a.



End BN.

(** ** Node's crypto: SHA-256 (FIPS 180-4) and the random source *)

Module SHA256.

Definition w32 (x : Z) : Z := Z.land x 0xffffffff.
Definition add32 (x y : Z) : Z := w32 (x + y).
Definition rotr (k x : Z) : Z :=
  Z.lor (Z.shiftr x k) (w32 (Z.shiftl x (32 - k))).
Definition Ch (x y z : Z) : Z :=
  Z.lxor (Z.land x y) (Z.land (Z.lxor x 0xffffffff) z).
Definition Maj (x y z : Z) : Z :=
  Z.lxor (Z.lxor (Z.land x y) (Z.land x z)) (Z.land y z).
Definition Sigma0 (x : Z) : Z := Z.lxor (Z.lxor (rotr 2 x) (rotr 13 x)) (rotr 22 x).
Definition Sigma1 (x : Z) : Z := Z.lxor (Z.lxor (rotr 6 x) (rotr 11 x)) (rotr 25 x).
Definition sigma0 (x : Z) : Z := Z.lxor (Z.lxor (rotr 7 x) (rotr 18 x)) (Z.shiftr x 3).
Definition sigma1 (x : Z) : Z := Z.lxor (Z.lxor (rotr 17 x) (rotr 19 x)) (Z.shiftr x 10).

Definition primes : list Z :=
  [2; 3; 5; 7; 11; 13; 17; 19; 23; 29; 31; 37; 41; 43; 47; 53; 59; 61; 67;
   71; 73; 79; 83; 89; 97; 101; 103; 107; 109; 113; 127; 131; 137; 139;
   149; 151; 157; 163; 167; 173; 179; 181; 191; 193; 197; 199; 211; 223;
   227; 229; 233; 239; 241; 251; 257; 263; 269; 271; 277; 281; 283; 293;
   307; 311].

(** The integer cube root of [x], found one bit at a time from bit [b]. *)
Fixpoint icbrt (b : nat) (x r : Z) : Z :=
  let r' := r + 2 ^ Z.of_nat b in
  let r := if r' * r' * r' <=? x then r' else r in
  match b with
  | O => r
  | S b' => icbrt b' x r
  end.

(** The round constants are the first 32 bits of the fractional parts of
    the cube roots of the first 64 primes; the initial state is the same
    for the square roots of the first 8. *)
Definition K : list Z :=
  Eval vm_compute in map (fun p => w32 (icbrt 40 (p * 2 ^ 96) 0)) primes.
Definition H0 : list Z :=
  Eval vm_compute in map (fun p => w32 (Z.sqrt (p * 2 ^ 64))) (firstn 8 primes).

Definition bytes_of_string (s : string) : list Z :=
  map (fun c => Z.of_N (N_of_ascii c)) (list_ascii_of_string s).

(** the [k] low bytes of [x], most significant first *)
Definition be_bytes (k : nat) (x : Z) : list Z :=
  map (fun i => Z.land (Z.shiftr x (8 * Z.of_nat i)) 0xff) (rev (seq 0 k)).

Definition pad (msg : list Z) : list Z :=
  let l := Z.of_nat (List.length msg) in
  msg ++ [0x80] ++ repeat 0 (Z.to_nat ((55 - l) mod 64)) ++ be_bytes 8 (8 * l).

Fixpoint words (k : nat) (bs : list Z) : list Z :=
  match k, bs with
  | S k', b0 :: b1 :: b2 :: b3 :: bs' =>
      (Z.shiftl b0 24 + Z.shiftl b1 16 + Z.shiftl b2 8 + b3) :: words k' bs'
  | _, _ => []
  end.

(** The message schedule; [ws] holds the words so far, newest first. *)
Fixpoint schedule (k : nat) (ws : list Z) : list Z :=
  match k with
  | O => ws
  | S k' =>
      let w := add32 (add32 (sigma1 (nth 1 ws 0)) (nth 6 ws 0))
                     (add32 (sigma0 (nth 14 ws 0)) (nth 15 ws 0)) in
      schedule k' (w :: ws)
  end.

Definition state : Type := (Z * Z * Z * Z * Z * Z * Z * Z)%type.

Definition round (st : state) (kw : Z * Z) : state :=
  let '(a, b, c, d, e, f, g, h) := st in
  let t1 := add32 (add32 (add32 h (Sigma1 e)) (add32 (Ch e f g) (fst kw))) (snd kw) in
  let t2 := add32 (Sigma0 a) (Maj a b c) in
  (add32 t1 t2, a, b, c, add32 d t1, e, f, g).

Definition compress (st : state) (block : list Z) : state :=
  let W := rev (schedule 48 (rev (words 16 block))) in
  let '(a, b, c, d, e, f, g, h) := fold_left round (combine K W) st in
  let '(a0, b0, c0, d0, e0, f0, g0, h0) := st in
  (add32 a0 a, add32 b0 b, add32 c0 c, add32 d0 d,
   add32 e0 e, add32 f0 f, add32 g0 g, add32 h0 h).

Fixpoint blocks (k : nat) (bs : list Z) (st : state) : state :=
  match k with
  | O => st
  | S k' => blocks k' (skipn 64 bs) (compress st (firstn 64 bs))
  end.

Definition init : state :=
  match H0 with
  | [a; b; c; d; e; f; g; h] => (a, b, c, d, e, f, g, h)
  | _ => (0, 0, 0, 0, 0, 0, 0, 0)
  end.

Definition digest (msg : list Z) : list Z :=
  let bs := pad msg in
  let '(a, b, c, d, e, f, g, h) := blocks (List.length bs / 64) bs init in
  flat_map (be_bytes 4) [a; b; c; d; e; f; g; h].

End SHA256.

Module Buffer.

Definition hexDigit (d : Z) : ascii :=
  ascii_of_N (Z.to_N (if d <? 10 then 48 + d else 87 + d)).

(** [buf.toString('hex')]: two lower-case digits a byte *)
Fixpoint toString_hex (buf : list Z) : string :=
  match buf with
  | [] => ""
  | b :: buf' => String (hexDigit (b / 16)) (String (hexDigit (b mod 16)) (toString_hex buf'))
  end.

Definition ofBytes (bs : list byte) : list Z :=
  map (fun b => Z.of_N (Byte.to_N b)) bs.

End Buffer.

(** [createHash('sha256').update(s).digest('hex')] *)
Definition sha256_hex (s : string) : string :=
  Buffer.toString_hex (SHA256.digest (SHA256.bytes_of_string s)).

(** ** Exceptions and the random source *)

Inductive exn : Type :=
| Error (message : string)       (* [throw new Error(message)] *)
| TypeError (message : string).  (* raised by the runtime *)

(** Code that returns or throws. *)
Inductive result (A : Type) : Type :=
| Ok (a : A)
| Raise (e : exn).
Arguments Ok {A} a.
Arguments Raise {A} e.

Definition bindR {A B : Type} (m : result A) (k : A -> result B) : result B :=
  match m with
  | Ok a => k a
  | Raise e => Raise e
  end.

(** Code that also draws from the random source.  The tape holds the bytes
    the source will hand out; [None] says that the tape ran dry while the
    code was still asking, so that nothing is known of the run. *)
Definition M (A : Type) : Type := list byte -> option (result A * list byte).

Definition ret {A : Type} (a : A) : M A := fun tape => Some (Ok a, tape).
Definition throw {A : Type} (e : exn) : M A := fun tape => Some (Raise e, tape).
Definition liftR {A : Type} (m : result A) : M A := fun tape => Some (m, tape).
Definition bind {A B : Type} (m : M A) (k : A -> M B) : M B :=
  fun tape =>
    match m tape with
    | Some (Ok a, tape') => k a tape'
    | Some (Raise e, tape') => Some (Raise e, tape')
    | None => None
    end.

Declare Scope frost_scope.
Delimit Scope frost_scope with frost.
Notation "x <- m ;; k" := (bind m (fun x => k))
  (at level 61, m at next level, right associativity) : frost_scope.
Notation "x <-! m ;; k" := (bindR m (fun x => k))
  (at level 61, m at next level, right associativity) : frost_scope.
Open Scope frost_scope.

(** [crypto.randomBytes(size)] *)
Definition randomBytes (size : nat) : M (list Z) :=
  fun tape =>
    if (List.length tape <? size)%nat then None
    else Some (Ok (Buffer.ofBytes (firstn size tape)), skipn size tape).

(** ** elliptic: the curve secp256k1 *)

Module ec.

(** The field of the curve [y^2 = x^3 + 7], the order [ec.curve.n] of
    its group, and the base point [ec.g]. *)
Definition p : Z := 2 ^ 256 - 2 ^ 32 - 977.
Definition n : Z :=
  0xfffffffffffffffffffffffffffffffebaaedce6af48a03bbfd25e8cd0364141.
Definition gx : Z :=
  0x79be667ef9dcbbac55a06295ce870b07029bfcdb2dce28d959f2815b16f81798.
Definition gy : Z :=
  0x483ada7726a3c4655da4fbfc0e1108a8fd17b448a68554199c47d08ffb10d4b8.

(** A point in affine coordinates; [None] is the point at infinity. *)
Definition point : Type := option (Z * Z).

Definition g : point := Some (gx, gy).

Definition add (P Q : point) : point :=
  match P, Q with
  | None, _ => Q
  | _, None => P
  | Some (x1, y1), Some (x2, y2) =>
      if x1 =? x2 then
        if (y1 + y2) mod p =? 0 then None
        else
          let l := (3 * x1 * x1 * Z.invmod (2 * y1) p) mod p in
          let x3 := (l * l - 2 * x1) mod p in
          Some (x3, (l * (x1 - x3) - y1) mod p)
      else
        let l := ((y2 - y1) * Z.invmod (x2 - x1) p) mod p in
        let x3 := (l * l - x1 - x2) mod p in
        Some (x3, (l * (x1 - x3) - y1) mod p)
  end.

Fixpoint mul_pos (k : positive) (P : point) : point :=
  match k with
  | xH => P
  | xO k' => let Q := mul_pos k' P in add Q Q
  | xI k' => let Q := mul_pos k' P in add P (add Q Q)
  end.

(** [ec.g.mul(k)].  The base point has order [n], so the multiple is
    that of the residue of [k]; the program only passes [0 <= k < n]. *)
Definition g_mul (k : Z) : point :=
  match k mod n with
  | Zpos q => mul_pos q g
  | _ => None
  end.

(** [P.getX()] and [P.getY()]: the point at infinity holds [null]
    coordinates, and reading them throws. *)
Definition getX (P : point) : result Z :=
  match P with
  | Some (x, _) => Ok x
  | None => Raise (TypeError "Cannot read properties of null (reading 'fromRed')")
  end.

Definition getY (P : point) : result Z :=
  match P with
  | Some (_, y) => Ok y
  | None => Raise (TypeError "Cannot read properties of null (reading 'fromRed')")
  end.

(** [P.mul(k)] for a point [P] and [0 <= k]. *)
Definition mul (k : Z) (P : point) : point :=
  match k with
  | Zpos q => mul_pos q P
  | _ => None
  end.





Section Verify.

(** what elliptic answers for a key that is not on the curve *)
Variable offCurve : Z -> Z * Z -> Z * Z -> result bool.


End Verify.

End ec.

(** ** The objects the methods exchange *)

Module Share.
(** a private share or a signature share: [{ index, value }] *)
Record t : Type := { index : Z; value : string }.
End Share.

(** what reading past the end of an array of shares would give *)
Definition noShare : Share.t := {| Share.index := 0; Share.value := "" |}.

Module Point.
Record t : Type := { x : string; y : string }.
End Point.

Module PublicShare.
Record t : Type := { index : Z; x : string; y : string }.
End PublicShare.

Module KeyShareSet.
Record t : Type :=
  { shares : list Share.t;
    publicShares : list PublicShare.t;
    groupPublicKey : Point.t;
    threshold : Z;
    total : Z }.
End KeyShareSet.

Module Commitment.
Record t : Type := { nonce : string; commitment : Point.t }.
End Commitment.

Module Signature.
Record t : Type := { r : string; s : string; v : Z; combined : string }.
End Signature.

(** ** class FrostSignature *)

(** Helper: Hash message for signing *)
Definition _hashMessage (message : string) : string := sha256_hex message.

(** Helper: Calculate binding factor (challenge) *)
Definition _calculateBindingFactor (messageHash : string) (commitments : list Point.t)
  : string :=
  let commitmentString :=
    fold_left (fun acc commitment =>
                 (acc ++ (Point.x commitment ++ Point.y commitment))%string)
              commitments "" in
  let bindingFactorInput := (messageHash ++ commitmentString)%string in
  sha256_hex bindingFactorInput.

(** Helper: Generate cryptographically secure random private key.  The
    [do ... while] loop draws again as long as the candidate is not below
    the order; every turn takes 32 bytes off the tape, so that [fuel] turns
    are never used up before the tape is. *)
Fixpoint _generateRandomPrivateKey_loop (fuel : nat) : M string :=
  match fuel with
  | O => fun _ => None
  | S fuel' =>
      randomBytesBuffer <- randomBytes 32 ;;
      let privateKey := Buffer.toString_hex randomBytesBuffer in
      if BN.gte (BN.ofHex privateKey) ec.n
      then _generateRandomPrivateKey_loop fuel'
      else ret privateKey
  end.

Definition _generateRandomPrivateKey : M string :=
  fun tape => _generateRandomPrivateKey_loop (S (List.length tape)) tape.

(** Helper: Calculate Lagrange coefficients for interpolation.  The
    indices are JavaScript numbers, and [new BN(number)] takes the integers
    below [2^53] in absolute value: the model is that of such indices (on a
    larger one the assertion of bn.js fails). *)
Definition lagrangeCoefficient (indices : list Z) (i : nat) : Z :=
  let xi := nth i indices 0 in
  fold_left
    (fun coeff j =>
       if (i =? j)%nat then coeff
       else
         let xj := nth j indices 0 in
         let num := BN.mod_ (0 - xj) ec.n in
         let denom := BN.mod_ (xi - xj) ec.n in
         let denomInv := BN.invm denom ec.n in
         BN.mod_ (coeff * num * denomInv) ec.n)
    (seq 0 (List.length indices)) 1.

Definition _calculateLagrangeCoefficients (indices : list Z) : list string :=
  map (fun i => BN.toString16 (lagrangeCoefficient indices i))
      (seq 0 (List.length indices)).

(** The evaluation of the polynomial at [x], as the inner loop of
    [generateKeyShares] does it. *)
Definition evaluatePolynomial (coefficients : list Z) (t : nat) (x : Z) : Z :=
  fold_left
    (fun share j =>
       let term := BN.mod_ (nth j coefficients 0 * x ^ Z.of_nat j) ec.n in
       BN.mod_ (share + term) ec.n)
    (seq 0 t) 0.

(** [{ x: P.getX().toString('hex'), y: P.getY().toString('hex') }] *)
Definition pointToHex (P : ec.point) : result Point.t :=
  x <-! ec.getX P ;;
  y <-! ec.getY P ;;
  Ok {| Point.x := BN.toString16 x; Point.y := BN.toString16 y |}.

(** The first loop of [generateKeyShares]: [t] coefficients, [a_0] first. *)
Fixpoint drawCoefficients (t : nat) : M (list Z) :=
  match t with
  | O => ret []
  | S t' =>
      a <- _generateRandomPrivateKey ;;
      rest <- drawCoefficients t' ;;
      ret (BN.ofHex a :: rest)
  end.

(** The second loop of [generateKeyShares], over the participants. *)
Fixpoint shareLoop (coefficients : list Z) (t : nat) (participants : list Z)
  : result (list Share.t * list PublicShare.t) :=
  match participants with
  | [] => Ok ([], [])
  | i :: participants' =>
      let share := evaluatePolynomial coefficients t i in
      let pubPoint := ec.g_mul share in
      px <-! ec.getX pubPoint ;;
      py <-! ec.getY pubPoint ;;
      rest <-! shareLoop coefficients t participants' ;;
      Ok ({| Share.index := i; Share.value := BN.toString16 share |} :: fst rest,
          {| PublicShare.index := i;
             PublicShare.x := BN.toString16 px;
             PublicShare.y := BN.toString16 py |} :: snd rest)
  end.

(** The participants [1, ..., n]. *)
Definition participants (n : Z) : list Z := map Z.of_nat (seq 1 (Z.to_nat n)).

(** Generate key shares for n participants with threshold t *)
Definition generateKeyShares (n t : Z) : M KeyShareSet.t :=
  if t >? n then throw (Error "Threshold cannot exceed total participants")
  else if t <? 1 then throw (Error "Threshold must be at least 1")
  else
    coefficients <- drawCoefficients (Z.to_nat t) ;;
    both <- liftR (shareLoop coefficients (Z.to_nat t) (participants n)) ;;
    groupPublicKey <- liftR (pointToHex (ec.g_mul (nth 0 coefficients 0))) ;;
    ret {| KeyShareSet.shares := fst both;
           KeyShareSet.publicShares := snd both;
           KeyShareSet.groupPublicKey := groupPublicKey;
           KeyShareSet.threshold := t;
           KeyShareSet.total := n |}.

(** Generate commitment for the preprocessing phase *)
Definition generateCommitment (privateShare : Share.t) : M Commitment.t :=
  drawn <- _generateRandomPrivateKey ;;
  let nonce := BN.ofHex drawn in
  let commitment := ec.g_mul nonce in
  hex <- liftR (pointToHex commitment) ;;
  ret {| Commitment.nonce := BN.toString16 nonce; Commitment.commitment := hex |}.

(** Generate signature share during the signing phase *)
Definition generateSignatureShare (message : string) (privateShare : Share.t)
  (nonce : string) (commitments : list Point.t) (participants : list PublicShare.t)
  : Share.t :=
  let messageHash := _hashMessage message in
  let privateKeyShare := BN.ofHex (Share.value privateShare) in
  let bindingFactor := _calculateBindingFactor messageHash commitments in
  let nonceBN := BN.ofHex nonce in
  let c := BN.ofHex bindingFactor in
  let signatureShare :=
    BN.mod_ (nonceBN + BN.mod_ (c * privateKeyShare) ec.n) ec.n in
  {| Share.index := Share.index privateShare;
     Share.value := BN.toString16 signatureShare |}.

(** The combining loop of [combineSignatureShares]. *)
Definition combineLoop (signatureShares : list Share.t)
  (lagrangeCoefficients : list string) : Z :=
  fold_left
    (fun combinedSignature i =>
       let share := BN.ofHex (Share.value (nth i signatureShares noShare)) in
       let lagrange := BN.ofHex (nth i lagrangeCoefficients "") in
       BN.mod_ (combinedSignature + BN.mod_ (share * lagrange) ec.n) ec.n)
    (seq 0 (List.length signatureShares)) 0.

(** Combine signature shares to create the threshold signature *)
Definition combineSignatureShares (message : string) (signatureShares : list Share.t)
  (commitments : list Point.t) (publicShares : list PublicShare.t) (threshold : Z)
  : M Signature.t :=
  let got := Z.of_nat (List.length signatureShares) in
  if got <? threshold then
    throw (Error ("Not enough signature shares. Need " ++ JsString.ofNumber threshold
                  ++ ", got " ++ JsString.ofNumber got)%string)
  else
    let messageHash := _hashMessage message in
    let bindingFactor := _calculateBindingFactor messageHash commitments in
    let indices := map Share.index signatureShares in
    let lagrangeCoefficients := _calculateLagrangeCoefficients indices in
    let combinedSignature := combineLoop signatureShares lagrangeCoefficients in
    let r := JsString.padStart 64 "0" (BN.toString16 combinedSignature) in
    drawn <- _generateRandomPrivateKey ;;
    let s := JsString.padStart 64 "0" (BN.toString16 (BN.ofHex drawn)) in
    ret {| Signature.r := r;
           Signature.s := s;
           Signature.v := 27;
           Signature.combined := BN.toString16 combinedSignature |}.

(** Verify a FROST threshold signature.  The two calls into elliptic,
    [ec.keyFromPublic] and [ec.verify], are taken as they come: each
    returns or throws.  An argument may be [null] or [undefined] ([None]):
    reading a property of it throws, and so does hashing it. *)
Section Verifier.

Variable KeyPair : Type.
Variable keyFromPublic : string -> string -> result KeyPair.
Variable verify : Z -> Z * Z -> KeyPair -> result bool.

Definition property {A : Type} (object : option A) (name : string) : result A :=
  match object with
  | Some fields => Ok fields
  | None =>
      Raise (TypeError ("Cannot read properties of undefined (reading '"
                        ++ name ++ "')")%string)
  end.



End Verifier.

(** ** Polynomials, for the proofs about the shares *)

Module Poly.

(** the value at [x] of the polynomial with coefficients [cs], lowest first *)
Fixpoint eval (cs : list Z) (x : Z) : Z :=
  match cs with
  | [] => 0
  | c :: cs' => c + x * eval cs' x
  end.

Fixpoint add (ps qs : list Z) : list Z :=
  match ps, qs with
  | [], _ => qs
  | _, [] => ps
  | p :: ps', q :: qs' => (p + q) :: add ps' qs'
  end.

Definition scale (c : Z) (ps : list Z) : list Z := map (Z.mul c) ps.

(** [(X - a) * P] *)
Definition mulLinear (a : Z) (ps : list Z) : list Z :=
  add (0 :: ps) (scale (- a) ps).

(** the quotient of [P] by [X - a] *)
Fixpoint divLinear (a : Z) (ps : list Z) : list Z :=
  match ps with
  | [] => []
  | _ :: ps' =>
      match ps' with
      | [] => []
      | _ :: _ => eval ps' a :: divLinear a ps'
      end
  end.

(** [sum f js] is the sum of [f j] over the positions [js]. *)
Definition sum (f : nat -> Z) (js : list nat) : Z :=
  fold_right (fun j acc => f j + acc) 0 js.

End Poly.

(** The sum of the terms [a_j * x^j] for [j < t], in the words of the
    specification. *)
Definition polynomialSum (coefficients : list Z) (t : nat) (x : Z) : Z :=
  Poly.sum (fun j => nth j coefficients 0 * x ^ Z.of_nat j) (seq 0 t).

(** The Lagrange basis at the position [i] of the nodes [xs], without any
    reduction: the product over the other positions [j] of
    [(X - x_j) * (x_i - x_j)^-1], as a value and as a polynomial. *)
Definition basisAt (q : Z) (xs : list Z) (i : nat) (X : Z) : Z :=
  fold_left
    (fun c j =>
       if (i =? j)%nat then c
       else Z.invmod (nth i xs 0 - nth j xs 0) q * ((X - nth j xs 0) * c))
    (seq 0 (List.length xs)) 1.

Definition basisPoly (q : Z) (xs : list Z) (i : nat) : list Z :=
  fold_left
    (fun P j =>
       if (i =? j)%nat then P
       else Poly.scale (Z.invmod (nth i xs 0 - nth j xs 0) q)
                       (Poly.mulLinear (nth j xs 0) P))
    (seq 0 (List.length xs)) [1].

(** The same basis, told by the node [x] itself and not by its position. *)
Definition basisOf (q : Z) (xs : list Z) (x : Z) (X : Z) : Z :=
  fold_left
    (fun c y => if x =? y then c else Z.invmod (x - y) q * ((X - y) * c))
    xs 1.

(** [1] for an odd number, [-1] for an even one: the sign of a product of
    one factor less, each factor not positive. *)
Definition sign (m : nat) : Z := if Nat.odd m then 1 else -1.

(** the sum of [F] over the elements of a list *)
Definition sumOver {A : Type} (F : A -> Z) (l : list A) : Z :=
  fold_right (fun e acc => F e + acc) 0 l.

(** The interpolating polynomial through the values [v i] at the nodes. *)
Definition interpolantPoly (q : Z) (xs : list Z) (v : nat -> Z) : list Z :=
  fold_right
    (fun i P => Poly.add (Poly.scale (v i) (basisPoly q xs i)) P)
    [] (seq 0 (List.length xs)).

(** ** The result of key generation, in the words of the specification *)

(** The share of the participant [i]: the polynomial sum modulo the order. *)
Definition shareOf (coefficients : list Z) (t : nat) (i : Z) : Share.t :=
  {| Share.index := i;
     Share.value := BN.toString16 (polynomialSum coefficients t i mod ec.n) |}.

(** The public share of the participant [i]: its share times the base point. *)
Definition isPublicShareOf (coefficients : list Z) (t : nat) (i : Z)
  (pub : PublicShare.t) : Prop :=
  PublicShare.index pub = i
  /\ pointToHex (ec.g_mul (polynomialSum coefficients t i mod ec.n))
     = Ok {| Point.x := PublicShare.x pub; Point.y := PublicShare.y pub |}.

Definition noPublicShare : PublicShare.t :=
  {| PublicShare.index := 0; PublicShare.x := ""; PublicShare.y := "" |}.

(** The nodes differ pairwise by units modulo [q]. *)
Definition unitDifferences (q : Z) (xs : list Z) : Prop :=
  forall a b, In a xs -> In b xs -> a <> b -> Z.coprime (a - b) q.

(** The group secret of a run: the constant term [a_0] of the polynomial,
    the first of the [t] scalars drawn from the tape. *)
Definition groupSecret (t : Z) (tape : list byte) : Z :=
  match drawCoefficients (Z.to_nat t) tape with
  | Some (Ok coefficients, _) => nth 0 coefficients 0
  | _ => 0
  end.

(** ** The candidates of the rejection loop *)

(** The candidates of [_generateRandomPrivateKey]: the [m]-th block of 32
    bytes of the random source, as the loop reads it. *)
Definition candidate (tape : list byte) (m : nat) : string :=
  Buffer.toString_hex (Buffer.ofBytes (firstn 32 (skipn (32 * m) tape))).

(** ** The signing helpers of scripts/byzantine-test.js (class ByzantineTester) *)

(** The helpers are [async] functions without any [await]: their bodies
    run at once, and what is modelled is the value their promise holds. *)

(** The two numbers of [BYZANTINE_CONFIG] that the helpers read. *)
Module BYZANTINE_CONFIG.
Definition testParticipants : Z := 7.
Definition testThreshold : Z := 4.
End BYZANTINE_CONFIG.

(** [try { body } catch (error) { handler }] *)
Definition tryCatch {A : Type} (body : M A) (handler : exn -> M A) : M A :=
  fun tape =>
    match body tape with
    | Some (Raise error, tape') => handler error tape'
    | run => run
    end.

(** [error.message] *)
Definition message_of (error : exn) : string :=
  match error with
  | Error message => message
  | TypeError message => message
  end.

(** [for (let i = 0; i < count; i++)
       commitments.push(generateCommitment(keyShares.shares[i]))].
    Past the end of the array the argument is [undefined], which
    [generateCommitment] never reads. *)
Fixpoint commitmentLoop (shares : list Share.t) (i count : nat) : M (list Commitment.t) :=
  match count with
  | O => ret []
  | S count' =>
      commitment <- generateCommitment (nth i shares noShare) ;;
      commitments <- commitmentLoop shares (S i) count' ;;
      ret (commitment :: commitments)
  end.

(** [for (let i = 0; i < count; i++)
       signatureShares.push(generateSignatureShare(message, keyShares.shares[i],
         commitments[i].nonce, commitments.map(c => c.commitment),
         keyShares.publicShares))].
    Reading [commitments[i].nonce] throws if there is no such commitment;
    a share past the end of the array is [undefined], and the method throws
    on reading its [value]. *)
Fixpoint signatureShareLoop (message : string) (keyShares : KeyShareSet.t)
  (commitments : list Commitment.t) (i count : nat) : result (list Share.t) :=
  match count with
  | O => Ok []
  | S count' =>
      commitment <-! property (nth_error commitments i) "nonce" ;;
      privateShare <-! property (nth_error (KeyShareSet.shares keyShares) i) "value" ;;
      let sigShare :=
        generateSignatureShare message privateShare (Commitment.nonce commitment)
                               (map Commitment.commitment commitments)
                               (KeyShareSet.publicShares keyShares) in
      signatureShares <-! signatureShareLoop message keyShares commitments (S i) count' ;;
      Ok (sigShare :: signatureShares)
  end.

(** What the simulations return: [{ success: true, signature }],
    [{ success: false, error }] or [{ success: false, reason }]. *)
Module Outcome.
Inductive t : Type :=
| success (signature : Signature.t)
| failure_error (error : string)
| failure_reason (reason : string).
End Outcome.

(** [simulateInsufficientParticipants(message, participantCount)]; the
    field [this.keyShares] is [null] until the tester is initialised. *)
Definition simulateInsufficientParticipants (keyShares : option KeyShareSet.t)
  (message : string) (participantCount : Z) : M Outcome.t :=
  tryCatch
    (match keyShares with
     | None => throw (Error "Key shares not available")
     | Some keyShares =>
         if participantCount <? BYZANTINE_CONFIG.testThreshold
         then ret (Outcome.failure_reason "Insufficient participants")
         else
           commitments <- commitmentLoop (KeyShareSet.shares keyShares) 0
                                         (Z.to_nat participantCount) ;;
           signatureShares <- liftR (signatureShareLoop message keyShares commitments 0
                                                        (Z.to_nat participantCount)) ;;
           combinedSignature <- combineSignatureShares
                                  message signatureShares
                                  (map Commitment.commitment commitments)
                                  (KeyShareSet.publicShares keyShares)
                                  BYZANTINE_CONFIG.testThreshold ;;
           ret (Outcome.success combinedSignature)
     end)
    (fun error => ret (Outcome.failure_error (message_of error))).

(** [generateValidSignature(message)]: the signature, or [null]. *)
Definition generateValidSignature (keyShares : option KeyShareSet.t) (message : string)
  : M (option Signature.t) :=
  tryCatch
    (match keyShares with
     | None => ret None
     | Some keyShares =>
         commitments <- commitmentLoop (KeyShareSet.shares keyShares) 0
                                       (Z.to_nat BYZANTINE_CONFIG.testThreshold) ;;
         signatureShares <- liftR (signatureShareLoop
                                     message keyShares commitments 0
                                     (Z.to_nat BYZANTINE_CONFIG.testThreshold)) ;;
         combinedSignature <- combineSignatureShares
                                message signatureShares
                                (map Commitment.commitment commitments)
                                (KeyShareSet.publicShares keyShares)
                                BYZANTINE_CONFIG.testThreshold ;;
         ret (Some combinedSignature)
     end)
    (fun error => ret None).

(** ** Runs used as examples *)

Definition byteOf (z : Z) : byte :=
  match Byte.of_N (Z.to_N (z mod 256)) with
  | Some b => b
  | None => x00
  end.

(** the 32 bytes that read as the scalar [k] *)
Definition drawOf (k : Z) : list byte :=
  map (fun i => byteOf (Z.shiftr k (8 * Z.of_nat i))) (rev (seq 0 32)).

(** a 2-of-3 group with the polynomial [5 + 3 X] *)
Definition tape_2_of_3 : list byte := drawOf 5 ++ drawOf 3.

Definition keys_2_of_3 :=
  Eval vm_compute in
    match generateKeyShares 3 2 tape_2_of_3 with
    | Some (Ok ks, _) => ks
    | _ => {| KeyShareSet.shares := []; KeyShareSet.publicShares := [];
              KeyShareSet.groupPublicKey := {| Point.x := ""; Point.y := "" |};
              KeyShareSet.threshold := 0; KeyShareSet.total := 0 |}
    end.

(** a group of 50 with threshold 50: the polynomial is the constant 1 *)
Definition tape_50_of_50 : list byte := drawOf 1 ++ List.concat (repeat (drawOf 0) 49).

(** The run failed with an [Error]: the kind the methods throw themselves
    on a bad argument. *)
Definition throwsError {A : Type} (run : option (result A * list byte)) : Prop :=
  exists message tape', run = Some (Raise (Error message), tape').

Definition returnsValue {A : Type} (run : option (result A * list byte)) : Prop :=
  exists a tape', run = Some (Ok a, tape').

(** A signing session of the participants 1 and 3 of that group on the
    message "test", with the nonces 7 and 9. *)
Definition share_1 : Share.t := {| Share.index := 1; Share.value := "8" |}.
Definition share_2 : Share.t := {| Share.index := 2; Share.value := "b" |}.
Definition share_3 : Share.t := {| Share.index := 3; Share.value := "e" |}.

Definition commitments_1_3 : list Point.t :=
  [ {| Point.x := "5cbdf0646e5db4eaa398f365f2ea7a0e3d419b7e0330e39ce92bddedcac4f9bc";
       Point.y := "6aebca40ba255960a3178d6d861a54dba813d0b813fde7b5a5082628087264da" |};
    {| Point.x := "acd484e2f0c7f65309ad178a9f559abde09796974c57e714c35f110dfc27ccbe";
       Point.y := "cc338921b0a7d9fd64380971763b61e9add888a4375f8e0f05cc262ac64f9c37" |} ].

Definition signatureShare_1 :=
  Eval vm_compute in
    generateSignatureShare "test" share_1 "7" commitments_1_3
                           (KeyShareSet.publicShares keys_2_of_3).

Definition signatureShare_3 :=
  Eval vm_compute in
    generateSignatureShare "test" share_3 "9" commitments_1_3
                           (KeyShareSet.publicShares keys_2_of_3).

(** The group of the tester, 7 participants with the threshold 4, on the
    polynomial [1 + X]; a session of its first four participants with the
    nonces 1, 2, 1, 2, and one of its first five with a fifth nonce 1; the
    last 32 bytes are the draw for [s]. *)
Definition tape_4_of_7 : list byte := drawOf 1 ++ drawOf 1 ++ drawOf 0 ++ drawOf 0.

Definition keys_4_of_7 :=
  Eval vm_compute in
    match generateKeyShares BYZANTINE_CONFIG.testParticipants
                            BYZANTINE_CONFIG.testThreshold tape_4_of_7 with
    | Some (Ok ks, _) => ks
    | _ => keys_2_of_3
    end.

Definition tape_session_4 : list byte :=
  drawOf 1 ++ drawOf 2 ++ drawOf 1 ++ drawOf 2 ++ drawOf 6.

Definition tape_session_5 : list byte :=
  drawOf 1 ++ drawOf 2 ++ drawOf 1 ++ drawOf 2 ++ drawOf 1 ++ drawOf 6.

Definition signature_4_of_7 :=
  Eval vm_compute in
    match generateValidSignature (Some keys_4_of_7) "test" tape_session_4 with
    | Some (Ok (Some signature), _) => signature
    | _ => {| Signature.r := ""; Signature.s := ""; Signature.v := 0;
              Signature.combined := "" |}
    end.

Definition signature_5_of_7 :=
  Eval vm_compute in
    match simulateInsufficientParticipants (Some keys_4_of_7) "test" 5 tape_session_5 with
    | Some (Ok (Outcome.success signature), _) => signature
    | _ => {| Signature.r := ""; Signature.s := ""; Signature.v := 0;
              Signature.combined := "" |}
    end.

(** Two draws that are not zero, [n - 1] and [1]: the polynomial
    [n - 1 + X] vanishes at the participant 1 modulo the order. *)
Definition tape_zero_share : list byte := drawOf (ec.n - 1) ++ drawOf 1.





(** ** Congruence modulo [q], for rewriting *)

#[local] Instance eqm_equivalence (q : Z) : Equivalence (eqm q) := eqm_setoid q.
#[local] Instance eqm_add (q : Z) : Proper (eqm q ==> eqm q ==> eqm q) Z.add :=
  Zplus_eqm q.
#[local] Instance eqm_sub (q : Z) : Proper (eqm q ==> eqm q ==> eqm q) Z.sub :=
  Zminus_eqm q.
#[local] Instance eqm_mul (q : Z) : Proper (eqm q ==> eqm q ==> eqm q) Z.mul :=
  Zmult_eqm q.

(* ================================================================== *)
(** * Part II: properties *)
(* ================================================================== *)

(** ** The libraries, checked on known values *)

Example sha256_abc :
  sha256_hex "abc" = "ba7816bf8f01cfea414140de5dae2223b00361a396177a9cb410ff61f20015ad".
Proof. vm_compute. reflexivity. Qed.

Example sha256_empty :
  sha256_hex "" = "e3b0c44298fc1c149afbf4c8996fb92427ae41e4649b934ca495991b7852b855".
Proof. vm_compute. reflexivity. Qed.

Example sha256_two_blocks :
  sha256_hex "abcdbcdecdefdefgefghfghighijhijkijkljklmklmnlmnomnopnopq"
  = "248d6a61d20638b8e5c026930c3e6039a33ce45964ff2167f6ecedd419db06c1".
Proof. vm_compute. reflexivity. Qed.

Example base_point_on_curve : (ec.gy * ec.gy - ec.gx * ec.gx * ec.gx - 7) mod ec.p = 0.
Proof. vm_compute. reflexivity. Qed.

Example base_point_doubled :
  pointToHex (ec.g_mul 2)
  = Ok {| Point.x := "c6047f9441ed7d6d3045406e95c07cd85c778e4b8cef3ca7abac09b95c709ee5";
          Point.y := "1ae168fea63dc339a3c58419466ceaeef7f632653266d0e1236431a950cfe52a" |}.
Proof. vm_compute. reflexivity. Qed.

Example base_point_times_zero : ec.g_mul 0 = None.
Proof. reflexivity. Qed.

Example hex_round_trip :
  BN.toString16 255 = "ff" /\ BN.toString16 (-255) = "-ff" /\ BN.toString16 0 = "0"
  /\ BN.ofHex "00fF" = 255 /\ BN.ofHex "-ff" = -255.
Proof. repeat split. Qed.

Example padStart_64 :
  JsString.padStart 64 "0" "5"
  = "0000000000000000000000000000000000000000000000000000000000000005".
Proof. reflexivity. Qed.

Example commitment_of_nonce_7 :
  generateCommitment share_1 (drawOf 7)
  = Some (Ok {| Commitment.nonce := "7";
                Commitment.commitment := nth 0 commitments_1_3 {| Point.x := ""; Point.y := "" |} |},
          []).
Proof. vm_compute. reflexivity. Qed.

Example commitment_of_nonce_9 :
  generateCommitment share_3 (drawOf 9)
  = Some (Ok {| Commitment.nonce := "9";
                Commitment.commitment := nth 1 commitments_1_3 {| Point.x := ""; Point.y := "" |} |},
          []).
Proof. vm_compute. reflexivity. Qed.

(** ** bn.js: strings and remainders *)

Lemma parseHex_of_pos :
  forall (p : positive) (rest : string),
    BN.parseHex (HexString.Raw.of_pos p rest) 0 = BN.parseHex rest (Zpos p).
Proof.
  fix IH 1.
  intros p rest.
  do 4 (try destruct p as [p | p | ]); try reflexivity;
    cbn [HexString.Raw.of_pos]; rewrite IH; reflexivity.
Qed.

Lemma ofHex_of_pos :
  forall (p : positive) (rest : string),
    BN.ofHex (HexString.Raw.of_pos p rest) = BN.parseHex (HexString.Raw.of_pos p rest) 0.
Proof.
  fix IH 1.
  intros p rest.
  do 4 (try destruct p as [p | p | ]); try reflexivity;
    cbn [HexString.Raw.of_pos]; apply IH.
Qed.

(** Reading back what [toString('hex')] wrote gives the number. *)
Lemma ofHex_toString16 (a : Z) : BN.ofHex (BN.toString16 a) = a.
Proof.
  destruct a as [ | p | p]; cbn [BN.toString16].
  - reflexivity.
  - rewrite ofHex_of_pos, parseHex_of_pos. reflexivity.
  - cbn [BN.ofHex]. rewrite parseHex_of_pos. reflexivity.
Qed.

Lemma parseHex4Bits_nonneg (ch : ascii) : 0 <= BN.parseHex4Bits ch.
Proof.
  unfold BN.parseHex4Bits.
  set (c := Z.of_N (N_of_ascii ch)).
  destruct ((65 <=? c) && (c <=? 70)) eqn:upper.
  - apply andb_prop in upper. lia.
  - destruct ((97 <=? c) && (c <=? 102)) eqn:lower.
    + apply andb_prop in lower. lia.
    + apply Z.land_nonneg. right. lia.
Qed.

Lemma parseHex_nonneg (s : string) :
  forall acc, 0 <= acc -> 0 <= BN.parseHex s acc.
Proof.
  induction s as [ | ch s IH]; intros acc Hacc; cbn [BN.parseHex].
  - exact Hacc.
  - apply IH. pose proof (parseHex4Bits_nonneg ch). lia.
Qed.

Lemma ofHex_unsigned (ch : ascii) (s : string) :
  ch <> "-"%char -> BN.ofHex (String ch s) = BN.parseHex (String ch s) 0.
Proof.
  intros Hch.
  destruct ch as [[] [] [] [] [] [] [] []]; try reflexivity.
  now elim Hch.
Qed.

Lemma hexDigit_unsigned (d : Z) : 0 <= d < 16 -> Buffer.hexDigit d <> "-"%char.
Proof.
  intros Hd.
  assert (Hcases : d = 0 \/ d = 1 \/ d = 2 \/ d = 3 \/ d = 4 \/ d = 5 \/ d = 6 \/ d = 7
                   \/ d = 8 \/ d = 9 \/ d = 10 \/ d = 11 \/ d = 12 \/ d = 13
                   \/ d = 14 \/ d = 15) by lia.
  repeat (destruct Hcases as [-> | Hcases]; [discriminate | ]).
  subst d. discriminate.
Qed.

Lemma byte_range (b : byte) : 0 <= Z.of_N (Byte.to_N b) < 256.
Proof.
  pose proof (Byte.to_N_bounded b). lia.
Qed.

(** The hexadecimal string of a buffer never reads as a negative number. *)
Lemma ofHex_toString_hex_nonneg (bs : list byte) :
  0 <= BN.ofHex (Buffer.toString_hex (Buffer.ofBytes bs)).
Proof.
  destruct bs as [ | b bs]; cbn [Buffer.ofBytes map Buffer.toString_hex].
  - cbn. lia.
  - pose proof (byte_range b) as Hb.
    rewrite ofHex_unsigned.
    + apply parseHex_nonneg. lia.
    + apply hexDigit_unsigned.
      split; [apply Z.div_pos; lia | apply Z.div_lt_upper_bound; lia].
Qed.

Lemma rem_mod_eq (a m : Z) : 0 < m -> (Z.rem a m) mod m = a mod m.
Proof.
  intros Hm.
  pose proof (Z.quot_rem' a m) as Hqr.
  replace (Z.rem a m) with (a + (- (a ÷ m)) * m) by lia.
  apply Z.mod_add. lia.
Qed.

Lemma rem_nonneg (a m : Z) : 0 <= a -> 0 < m -> Z.rem a m = a mod m.
Proof.
  intros Ha Hm. apply Z.rem_mod_nonneg; assumption.
Qed.

Lemma order_positive : 1 < ec.n.
Proof. reflexivity. Qed.

(** ** The random scalars *)

Lemma randomBytes_inv (size : nat) (tape : list byte) (o : result (list Z)) (tape' : list byte) :
  randomBytes size tape = Some (o, tape') ->
  o = Ok (Buffer.ofBytes (firstn size tape)) /\ tape' = skipn size tape
  /\ (size <= List.length tape)%nat.
Proof.
  unfold randomBytes.
  destruct (List.length tape <? size)%nat eqn:Hlen; [discriminate | ].
  intros H. inversion H. apply Nat.ltb_ge in Hlen. auto.
Qed.

(** The loop hands out the first candidate below the order, and nothing
    but a candidate: it never throws. *)
Lemma generateRandomPrivateKey_loop_inv (fuel : nat) :
  forall tape o tape',
    _generateRandomPrivateKey_loop fuel tape = Some (o, tape') ->
    exists bs, o = Ok (Buffer.toString_hex (Buffer.ofBytes bs))
               /\ List.length bs = 32%nat
               /\ BN.ofHex (Buffer.toString_hex (Buffer.ofBytes bs)) < ec.n.
Proof.
  induction fuel as [ | fuel IH]; intros tape o tape' Hrun.
  - discriminate.
  - cbn [_generateRandomPrivateKey_loop] in Hrun. unfold bind in Hrun.
    destruct (randomBytes 32 tape) as [[o1 tape1] | ] eqn:Hdraw; [ | discriminate].
    apply randomBytes_inv in Hdraw. destruct Hdraw as (-> & -> & Hlen).
    destruct (BN.gte _ _) eqn:Hgte.
    + eapply IH. exact Hrun.
    + unfold ret in Hrun. inversion Hrun. subst.
      exists (firstn 32 tape). split; [reflexivity | ].
      split; [apply firstn_length_le; exact Hlen | ].
      unfold BN.gte in Hgte. apply Z.leb_gt in Hgte. exact Hgte.
Qed.

(** Fuel beyond what the tape can feed changes nothing. *)
Lemma generateRandomPrivateKey_loop_fuel (fuel : nat) :
  forall fuel' tape,
    (List.length tape < 32 * fuel)%nat -> (List.length tape < 32 * fuel')%nat ->
    _generateRandomPrivateKey_loop fuel tape = _generateRandomPrivateKey_loop fuel' tape.
Proof.
  induction fuel as [ | fuel IH]; intros fuel' tape Hfuel Hfuel'; [lia | ].
  destruct fuel' as [ | fuel']; [lia | ].
  cbn [_generateRandomPrivateKey_loop]. unfold bind.
  destruct (randomBytes 32 tape) as [[o tape1] | ] eqn:Hdraw; [ | reflexivity].
  apply randomBytes_inv in Hdraw. destruct Hdraw as (-> & -> & Hlen).
  destruct (BN.gte _ _); [ | reflexivity].
  apply IH; rewrite length_skipn; lia.
Qed.

(** The loop, one turn at a time: with fewer than 32 bytes left nothing
    is known; a candidate not below the order is dropped and the loop
    goes on with the rest of the tape; any other candidate is returned. *)
Lemma generateRandomPrivateKey_unfold (tape : list byte) :
  _generateRandomPrivateKey tape
  = if (List.length tape <? 32)%nat then None
    else
      let privateKey := Buffer.toString_hex (Buffer.ofBytes (firstn 32 tape)) in
      if BN.gte (BN.ofHex privateKey) ec.n
      then _generateRandomPrivateKey (skipn 32 tape)
      else Some (Ok privateKey, skipn 32 tape).
Proof.
  unfold _generateRandomPrivateKey at 1.
  cbn [_generateRandomPrivateKey_loop]. unfold bind, randomBytes.
  destruct (Nat.ltb_spec (List.length tape) 32) as [Hshort | Hlong]; [reflexivity | ].
  cbv zeta. destruct (BN.gte _ _); [ | reflexivity].
  unfold _generateRandomPrivateKey.
  apply generateRandomPrivateKey_loop_fuel; rewrite length_skipn; lia.
Qed.

(** What [_generateRandomPrivateKey] returns lies in [0, n-1]. *)
Lemma generateRandomPrivateKey_range (tape : list byte) (o : result string) (tape' : list byte) :
  _generateRandomPrivateKey tape = Some (o, tape') ->
  exists k, o = Ok k /\ 0 <= BN.ofHex k < ec.n.
Proof.
  unfold _generateRandomPrivateKey. intros Hrun.
  apply generateRandomPrivateKey_loop_inv in Hrun.
  destruct Hrun as (bs & -> & _ & Hlt).
  eexists. split; [reflexivity | ].
  split; [apply ofHex_toString_hex_nonneg | exact Hlt].
Qed.

(** ** Polynomials *)

Lemma eval_add (ps : list Z) :
  forall qs x, Poly.eval (Poly.add ps qs) x = Poly.eval ps x + Poly.eval qs x.
Proof.
  induction ps as [ | p ps IH]; intros [ | q qs] x; cbn [Poly.add Poly.eval]; try lia.
  rewrite IH. lia.
Qed.

Lemma length_add (ps : list Z) :
  forall qs, List.length (Poly.add ps qs) = Nat.max (List.length ps) (List.length qs).
Proof.
  induction ps as [ | p ps IH]; intros [ | q qs]; cbn [Poly.add List.length Nat.max];
    try reflexivity.
  rewrite IH. reflexivity.
Qed.

Lemma eval_scale (c : Z) (ps : list Z) (x : Z) :
  Poly.eval (Poly.scale c ps) x = c * Poly.eval ps x.
Proof.
  induction ps as [ | p ps IH]; cbn [Poly.scale map Poly.eval]; [lia | ].
  fold (Poly.scale c ps). rewrite IH. lia.
Qed.

Lemma length_scale (c : Z) (ps : list Z) :
  List.length (Poly.scale c ps) = List.length ps.
Proof. apply length_map. Qed.

Lemma eval_mulLinear (a : Z) (ps : list Z) (x : Z) :
  Poly.eval (Poly.mulLinear a ps) x = (x - a) * Poly.eval ps x.
Proof.
  unfold Poly.mulLinear. rewrite eval_add, eval_scale. cbn [Poly.eval]. lia.
Qed.

Lemma length_mulLinear (a : Z) (ps : list Z) :
  List.length (Poly.mulLinear a ps) = S (List.length ps).
Proof.
  unfold Poly.mulLinear. rewrite length_add, length_scale. cbn [List.length]. lia.
Qed.

Lemma divLinear_spec (a : Z) (ps : list Z) (x : Z) :
  Poly.eval ps x = (x - a) * Poly.eval (Poly.divLinear a ps) x + Poly.eval ps a.
Proof.
  induction ps as [ | p ps IH]; [cbn; lia | ].
  destruct ps as [ | p' ps]; [cbn; lia | ].
  change (Poly.divLinear a (p :: p' :: ps))
    with (Poly.eval (p' :: ps) a :: Poly.divLinear a (p' :: ps)).
  change (Poly.eval (p :: p' :: ps) x) with (p + x * Poly.eval (p' :: ps) x).
  change (Poly.eval (p :: p' :: ps) a) with (p + a * Poly.eval (p' :: ps) a).
  change (Poly.eval (Poly.eval (p' :: ps) a :: Poly.divLinear a (p' :: ps)) x)
    with (Poly.eval (p' :: ps) a + x * Poly.eval (Poly.divLinear a (p' :: ps)) x).
  rewrite IH at 1. lia.
Qed.

Lemma length_divLinear (a : Z) (ps : list Z) :
  List.length (Poly.divLinear a ps) = Nat.pred (List.length ps).
Proof.
  induction ps as [ | p ps IH]; [reflexivity | ].
  destruct ps as [ | p' ps]; [reflexivity | ].
  change (Poly.divLinear a (p :: p' :: ps))
    with (Poly.eval (p' :: ps) a :: Poly.divLinear a (p' :: ps)).
  cbn [List.length Nat.pred] in *. rewrite IH. reflexivity.
Qed.

Lemma sum_app (f : nat -> Z) (js ks : list nat) :
  Poly.sum f (js ++ ks) = Poly.sum f js + Poly.sum f ks.
Proof.
  unfold Poly.sum. induction js as [ | j js IH]; cbn [app fold_right]; lia.
Qed.

Lemma sum_ext (f g : nat -> Z) (js : list nat) :
  (forall j, In j js -> f j = g j) -> Poly.sum f js = Poly.sum g js.
Proof.
  unfold Poly.sum. induction js as [ | j js IH]; intros Hfg; cbn [fold_right].
  - reflexivity.
  - rewrite IH, (Hfg j); [reflexivity | now left | ].
    intros k Hk. apply Hfg. now right.
Qed.

Lemma sum_map (f : nat -> Z) (g : nat -> nat) (js : list nat) :
  Poly.sum f (map g js) = Poly.sum (fun j => f (g j)) js.
Proof.
  unfold Poly.sum. induction js as [ | j js IH]; cbn [map fold_right]; congruence.
Qed.

Lemma sum_scale (c : Z) (f : nat -> Z) (js : list nat) :
  c * Poly.sum f js = Poly.sum (fun j => c * f j) js.
Proof.
  unfold Poly.sum. induction js as [ | j js IH]; cbn [fold_right]; lia.
Qed.

(** The sum of the specification is the value of the polynomial. *)
Lemma polynomialSum_eval (cs : list Z) (x : Z) :
  polynomialSum cs (List.length cs) x = Poly.eval cs x.
Proof.
  unfold polynomialSum.
  induction cs as [ | c cs IH]; [reflexivity | ].
  cbn [List.length seq Poly.eval]. rewrite <- seq_shift.
  change (Poly.sum ?f (0%nat :: ?l)) with (f 0%nat + Poly.sum f l).
  rewrite sum_map, <- IH, sum_scale. cbn [nth].
  rewrite Z.pow_0_r.
  f_equal; [lia | ].
  apply sum_ext. intros j _.
  rewrite Nat2Z.inj_succ, Z.pow_succ_r by lia. lia.
Qed.

(** ** Interpolation modulo [q]

    Nothing here asks [q] to be prime: the differences of the nodes have
    to be prime to [q], which is what makes them invertible. *)

Section Interpolation.

Variable q : Z.
Hypothesis q_gt_1 : 1 < q.

Local Infix "==" := (eqm q) (at level 70).

Lemma eqm_zero_sub (a b : Z) : a - b == 0 -> a == b.
Proof.
  intros H. replace a with ((a - b) + b) by lia. rewrite H. reflexivity.
Qed.

Lemma invmod_unit (d : Z) : Z.coprime d q -> Z.invmod d q * d == 1.
Proof.
  intros Hd. unfold eqm.
  rewrite Z.invmod_coprime by (assumption || lia).
  symmetry. apply Z.mod_1_l. lia.
Qed.

(** A polynomial with as many roots as coefficients, the roots differing
    by units, vanishes everywhere. *)
Lemma roots_vanish (xs : list Z) :
  NoDup xs -> unitDifferences q xs ->
  forall ps, (List.length ps <= List.length xs)%nat ->
    (forall x, In x xs -> Poly.eval ps x == 0) ->
    forall X, Poly.eval ps X == 0.
Proof.
  induction xs as [ | a xs IH]; intros Hnd Hunits ps Hlen Hroots X.
  - destruct ps; [reflexivity | cbn in Hlen; lia].
  - inversion Hnd as [ | ? ? Hnotin Hnd']; subst.
    assert (HQ : forall Y, Poly.eval (Poly.divLinear a ps) Y == 0).
    { apply IH.
      - exact Hnd'.
      - intros u w Hu Hw. apply Hunits; now right.
      - rewrite length_divLinear. cbn [List.length] in Hlen. lia.
      - intros x Hx.
        assert (Hxa : x <> a) by (intros ->; contradiction).
        pose proof (Hroots x (or_intror Hx)) as Hx0.
        pose proof (Hroots a (or_introl eq_refl)) as Ha0.
        rewrite (divLinear_spec a ps x), Ha0, Z.add_0_r in Hx0.
        unfold eqm in Hx0 |- *. rewrite Z.mod_0_l in * by lia.
        apply Z.cong_mul_cancel_r_coprime with (b := x - a).
        + lia.
        + apply Hunits; [now right | now left | exact Hxa].
        + rewrite Z.mul_comm. exact Hx0. }
    rewrite (divLinear_spec a ps X), (HQ X), (Hroots a (or_introl eq_refl)).
    rewrite Z.mul_0_r. reflexivity.
Qed.

Lemma basisPoly_eval (xs : list Z) (i : nat) (X : Z) :
  Poly.eval (basisPoly q xs i) X = basisAt q xs i X.
Proof.
  unfold basisPoly, basisAt.
  assert (Hgen : forall js P c, Poly.eval P X = c ->
             Poly.eval
               (fold_left
                  (fun P j =>
                     if (i =? j)%nat then P
                     else Poly.scale (Z.invmod (nth i xs 0 - nth j xs 0) q)
                                     (Poly.mulLinear (nth j xs 0) P)) js P) X
             = fold_left
                 (fun c j =>
                    if (i =? j)%nat then c
                    else Z.invmod (nth i xs 0 - nth j xs 0) q
                         * ((X - nth j xs 0) * c)) js c).
  { induction js as [ | j js IH]; intros P c Hstart; cbn [fold_left].
    - exact Hstart.
    - apply IH. destruct (i =? j)%nat; [exact Hstart | ].
      rewrite eval_scale, eval_mulLinear, Hstart. reflexivity. }
  apply Hgen. cbn [Poly.eval]. lia.
Qed.

Lemma basisPoly_length (xs : list Z) (i : nat) :
  (i < List.length xs)%nat ->
  List.length (basisPoly q xs i) = List.length xs.
Proof.
  intros Hi. unfold basisPoly.
  assert (Hgen : forall js P,
             (List.length (fold_left
                (fun P j =>
                   if (i =? j)%nat then P
                   else Poly.scale (Z.invmod (nth i xs 0 - nth j xs 0)%Z q)
                                   (Poly.mulLinear (nth j xs 0%Z) P)) js P)
              + count_occ Nat.eq_dec js i = List.length P + List.length js)%nat).
  { induction js as [ | j js IHjs]; intros P; cbn [fold_left count_occ List.length].
    - lia.
    - destruct (Nat.eqb_spec i j) as [-> | Hij].
      + destruct (Nat.eq_dec j j) as [_ | Hjj]; [ | now elim Hjj].
        specialize (IHjs P). lia.
      + destruct (Nat.eq_dec j i) as [Hji | _]; [now elim Hij | ].
        rewrite IHjs, length_scale, length_mulLinear. lia. }
  specialize (Hgen (seq 0 (List.length xs)) [1]).
  assert (Hone : count_occ Nat.eq_dec (seq 0 (List.length xs)) i = 1%nat).
  { apply NoDup_count_occ'; [apply seq_NoDup | apply in_seq; lia]. }
  rewrite Hone, length_seq in Hgen. cbn [List.length] in Hgen. lia.
Qed.

(** At its own node the basis is [1] ... *)
Lemma basisAt_same (xs : list Z) (i : nat) :
  NoDup xs -> unitDifferences q xs -> (i < List.length xs)%nat ->
  basisAt q xs i (nth i xs 0) == 1.
Proof.
  intros Hnd Hunits Hi. unfold basisAt.
  assert (Hgen : forall js c,
             (forall j, In j js -> (j < List.length xs)%nat) -> c == 1 ->
             fold_left
               (fun c j =>
                  if (i =? j)%nat then c
                  else Z.invmod (nth i xs 0 - nth j xs 0) q
                       * ((nth i xs 0 - nth j xs 0) * c)) js c == 1).
  { induction js as [ | j js IHjs]; intros c Hjs Hc; cbn [fold_left].
    - exact Hc.
    - apply IHjs; [intros; apply Hjs; now right | ].
      destruct (Nat.eqb_spec i j) as [-> | Hij]; [exact Hc | ].
      rewrite Hc, Z.mul_1_r. apply invmod_unit.
      assert (Hj : (j < List.length xs)%nat) by (apply Hjs; now left).
      apply Hunits; try (apply nth_In; assumption).
      intros Heq. apply Hij.
      apply (proj1 (NoDup_nth xs 0) Hnd); assumption. }
  apply Hgen; [ | reflexivity].
  intros j Hj. apply in_seq in Hj. lia.
Qed.

(** ... and at any other node it is [0]. *)
Lemma basisAt_other (xs : list Z) (i m : nat) :
  (m < List.length xs)%nat -> i <> m ->
  basisAt q xs i (nth m xs 0) = 0.
Proof.
  intros Hm Him. unfold basisAt.
  set (step := fun c j =>
                 if (i =? j)%nat then c
                 else Z.invmod (nth i xs 0 - nth j xs 0) q
                      * ((nth m xs 0 - nth j xs 0) * c)).
  assert (Hzero : forall js, fold_left step js 0 = 0).
  { induction js as [ | j js IHjs]; cbn [fold_left]; [reflexivity | ].
    unfold step at 2. destruct (i =? j)%nat; [exact IHjs | ].
    rewrite Z.mul_0_r, Z.mul_0_r. exact IHjs. }
  assert (Hgen : forall js c, In m js -> fold_left step js c = 0).
  { induction js as [ | j js IHjs]; intros c Hin; [contradiction | ].
    cbn [fold_left]. destruct Hin as [-> | Hin].
    - unfold step at 2. destruct (Nat.eqb_spec i m) as [Heq | _]; [now elim Him | ].
      rewrite Z.sub_diag, Z.mul_0_l, Z.mul_0_r. apply Hzero.
    - apply IHjs. exact Hin. }
  apply Hgen. apply in_seq. lia.
Qed.

Lemma sum_zero (f : nat -> Z) (js : list nat) :
  (forall j, In j js -> f j = 0) -> Poly.sum f js = 0.
Proof.
  unfold Poly.sum. induction js as [ | j js IH]; intros Hzero; cbn [fold_right].
  - reflexivity.
  - rewrite IH, (Hzero j); [reflexivity | now left | ].
    intros k Hk. apply Hzero. now right.
Qed.

Lemma sum_single (f : nat -> Z) (m : nat) (js : list nat) :
  NoDup js -> In m js -> (forall j, In j js -> j <> m -> f j = 0) ->
  Poly.sum f js = f m.
Proof.
  induction js as [ | j js IH]; intros Hnd Hin Hzero; [contradiction | ].
  inversion Hnd as [ | ? ? Hnotin Hnd']; subst.
  change (Poly.sum f (j :: js)) with (f j + Poly.sum f js).
  destruct Hin as [-> | Hin].
  - rewrite sum_zero; [lia | ].
    intros k Hk. apply Hzero; [now right | ].
    intros ->. contradiction.
  - rewrite IH; try assumption.
    + rewrite (Hzero j); [lia | now left | ].
      intros ->. contradiction.
    + intros k Hk. apply Hzero. now right.
Qed.

Lemma interpolantPoly_eval (xs : list Z) (v : nat -> Z) (X : Z) :
  Poly.eval (interpolantPoly q xs v) X
  = Poly.sum (fun i => v i * basisAt q xs i X) (seq 0 (List.length xs)).
Proof.
  unfold interpolantPoly, Poly.sum.
  induction (seq 0 (List.length xs)) as [ | i js IH]; cbn [fold_right].
  - reflexivity.
  - rewrite eval_add, eval_scale, basisPoly_eval, IH. reflexivity.
Qed.

Lemma interpolantPoly_length (xs : list Z) (v : nat -> Z) :
  (List.length (interpolantPoly q xs v) <= List.length xs)%nat.
Proof.
  unfold interpolantPoly.
  assert (Hgen : forall js, (forall j, In j js -> (j < List.length xs)%nat) ->
             (List.length
                (fold_right
                   (fun i P => Poly.add (Poly.scale (v i) (basisPoly q xs i)) P)
                   [] js) <= List.length xs)%nat).
  { induction js as [ | j js IHjs]; intros Hjs; cbn [fold_right].
    - cbn. lia.
    - rewrite length_add, length_scale, basisPoly_length by (apply Hjs; now left).
      apply Nat.max_lub; [lia | ].
      apply IHjs. intros; apply Hjs; now right. }
  apply Hgen. intros j Hj. apply in_seq in Hj. lia.
Qed.

(** Lagrange interpolation at 0: from the values of a polynomial with
    no more coefficients than there are nodes, the weighted sum gives
    back the constant term. *)
Lemma interpolation_at_zero (xs ps : list Z) (v : nat -> Z) :
  NoDup xs -> unitDifferences q xs ->
  (List.length ps <= List.length xs)%nat ->
  (forall i, (i < List.length xs)%nat -> v i == Poly.eval ps (nth i xs 0)) ->
  Poly.sum (fun i => v i * basisAt q xs i 0) (seq 0 (List.length xs))
  == Poly.eval ps 0.
Proof.
  intros Hnd Hunits Hlen Hv.
  set (D := Poly.add (interpolantPoly q xs v) (Poly.scale (-1) ps)).
  assert (HD : forall X, Poly.eval D X == 0).
  { apply (roots_vanish xs Hnd Hunits).
    - unfold D. rewrite length_add, length_scale.
      apply Nat.max_lub; [apply interpolantPoly_length | exact Hlen].
    - intros x Hx.
      destruct (In_nth xs x 0 Hx) as (m & Hm & <-).
      unfold D. rewrite eval_add, eval_scale, interpolantPoly_eval.
      rewrite (sum_single _ m).
      + rewrite (basisAt_same xs m Hnd Hunits Hm), (Hv m Hm).
        unfold eqm. f_equal. lia.
      + apply seq_NoDup.
      + apply in_seq. lia.
      + intros j _ Hjm. rewrite basisAt_other by assumption. lia. }
  specialize (HD 0). unfold D in HD.
  rewrite eval_add, eval_scale, interpolantPoly_eval in HD.
  apply eqm_zero_sub.
  replace (Poly.sum (fun i => v i * basisAt q xs i 0) (seq 0 (List.length xs))
           - Poly.eval ps 0)
    with (Poly.sum (fun i => v i * basisAt q xs i 0) (seq 0 (List.length xs))
          + -1 * Poly.eval ps 0) by lia.
  exact HD.
Qed.

End Interpolation.

(** ** The loops of the program, modulo the order *)

Lemma fold_left_rel {A B C : Type} (R : A -> B -> Prop)
  (f : A -> C -> A) (g : B -> C -> B) (l : list C) :
  (forall a b c, In c l -> R a b -> R (f a c) (g b c)) ->
  forall a b, R a b -> R (fold_left f l a) (fold_left g l b).
Proof.
  induction l as [ | c l IH]; intros Hstep a b Hab; cbn [fold_left].
  - exact Hab.
  - apply IH.
    + intros a' b' c' Hc'. apply Hstep. now right.
    + apply Hstep; [now left | exact Hab].
Qed.

Lemma eqm_rem (a : Z) : eqm ec.n (Z.rem a ec.n) a.
Proof. apply rem_mod_eq. pose proof order_positive. lia. Qed.

Lemma invmod_rem (a : Z) : Z.invmod (Z.rem a ec.n) ec.n = Z.invmod a ec.n.
Proof.
  unfold Z.invmod. rewrite rem_mod_eq; [reflexivity | ].
  pose proof order_positive. lia.
Qed.

(** The coefficient the program computes is the Lagrange basis at 0. *)
Lemma lagrangeCoefficient_basis (indices : list Z) (i : nat) :
  eqm ec.n (lagrangeCoefficient indices i) (basisAt ec.n indices i 0).
Proof.
  unfold lagrangeCoefficient, basisAt.
  apply fold_left_rel; [ | reflexivity].
  intros a b j _ Hab.
  destruct (i =? j)%nat; [exact Hab | ].
  unfold BN.mod_, BN.invm. rewrite invmod_rem.
  rewrite (eqm_rem (a * _ * _)), (eqm_rem (0 - nth j indices 0)), Hab.
  unfold eqm. f_equal. ring.
Qed.

Lemma nth_lagrangeCoefficients (indices : list Z) (i : nat) :
  (i < List.length indices)%nat ->
  nth i (_calculateLagrangeCoefficients indices) ""
  = BN.toString16 (lagrangeCoefficient indices i).
Proof.
  intros Hi. unfold _calculateLagrangeCoefficients.
  rewrite nth_indep with (d' := BN.toString16 (lagrangeCoefficient indices 0))
    by (rewrite length_map, length_seq; exact Hi).
  rewrite (map_nth (fun i => BN.toString16 (lagrangeCoefficient indices i))).
  rewrite seq_nth by exact Hi. reflexivity.
Qed.

(** The combining loop adds up, modulo the order, the products of the
    share values and the coefficients. *)
Lemma combineLoop_sum (signatureShares : list Share.t) (lagrangeCoefficients : list string) :
  eqm ec.n
      (combineLoop signatureShares lagrangeCoefficients)
      (Poly.sum (fun i => BN.ofHex (Share.value (nth i signatureShares noShare))
                          * BN.ofHex (nth i lagrangeCoefficients ""))
                (seq 0 (List.length signatureShares))).
Proof.
  unfold combineLoop.
  set (term := fun i => BN.ofHex (Share.value (nth i signatureShares noShare))
                        * BN.ofHex (nth i lagrangeCoefficients "")).
  assert (Hgen : forall js a,
             eqm ec.n
               (fold_left (fun acc i => BN.mod_ (acc + BN.mod_ (term i) ec.n) ec.n) js a)
               (a + Poly.sum term js)).
  { induction js as [ | j js IH]; intros a; cbn [fold_left].
    - unfold Poly.sum. cbn [fold_right]. rewrite Z.add_0_r. reflexivity.
    - rewrite IH. change (Poly.sum term (j :: js)) with (term j + Poly.sum term js).
      unfold BN.mod_.
      rewrite (eqm_rem (a + _)), (eqm_rem (term j)).
      unfold eqm. f_equal. ring. }
  exact (Hgen (seq 0 (List.length signatureShares)) 0).
Qed.

(** The inner loop of [generateKeyShares] computes the polynomial sum
    modulo the order. *)
Lemma evaluatePolynomial_sum (coefficients : list Z) (t : nat) (x : Z) :
  (forall j, 0 <= nth j coefficients 0) -> 0 <= x ->
  evaluatePolynomial coefficients t x = polynomialSum coefficients t x mod ec.n.
Proof.
  intros Hcs Hx. pose proof order_positive as Hn.
  unfold evaluatePolynomial, polynomialSum.
  induction t as [ | t IH].
  - reflexivity.
  - rewrite seq_S, fold_left_app, sum_app, IH. cbn [fold_left Nat.add].
    unfold Poly.sum at 3. cbn [fold_right]. rewrite Z.add_0_r.
    unfold BN.mod_.
    assert (Hterm : 0 <= nth t coefficients 0 * x ^ Z.of_nat t).
    { apply Z.mul_nonneg_nonneg; [apply Hcs | apply Z.pow_nonneg; exact Hx]. }
    rewrite (rem_nonneg (nth t coefficients 0 * x ^ Z.of_nat t)) by lia.
    rewrite rem_nonneg.
    + rewrite <- Zplus_mod. reflexivity.
    + apply Z.add_nonneg_nonneg; apply Z.mod_pos_bound; lia.
    + lia.
Qed.

Lemma sum_eqm (f g : nat -> Z) (js : list nat) :
  (forall j, In j js -> eqm ec.n (f j) (g j)) ->
  eqm ec.n (Poly.sum f js) (Poly.sum g js).
Proof.
  induction js as [ | j js IH]; intros Hfg.
  - reflexivity.
  - change (eqm ec.n (f j + Poly.sum f js) (g j + Poly.sum g js)).
    rewrite IH, (Hfg j); [reflexivity | now left | ].
    intros k Hk. apply Hfg. now right.
Qed.

Lemma eval_zero (cs : list Z) : Poly.eval cs 0 = nth 0 cs 0.
Proof. destruct cs; cbn [Poly.eval nth]; lia. Qed.

(** The multiple of the base point depends on the scalar modulo the
    order only. *)
Lemma g_mul_congruent (a b : Z) : a mod ec.n = b mod ec.n -> ec.g_mul a = ec.g_mul b.
Proof. unfold ec.g_mul. intros ->. reflexivity. Qed.

(** Every non-zero difference of two participants of a group of at most
    50 is prime to the order. *)
Lemma small_differences_units (d : Z) :
  d <> 0 -> -50 < d < 50 -> Z.coprime d ec.n.
Proof.
  intros Hd Hrange. unfold Z.coprime.
  assert (Hcheck : forallb (fun k => Z.gcd (Z.of_nat k) ec.n =? 1) (seq 1 49) = true)
    by (vm_compute; reflexivity).
  rewrite forallb_forall in Hcheck.
  rewrite <- Z.gcd_abs_l.
  specialize (Hcheck (Z.to_nat (Z.abs d))).
  rewrite Z2Nat.id in Hcheck by lia.
  apply Z.eqb_eq, Hcheck, in_seq. lia.
Qed.

Lemma participants_unitDifferences (xs : list Z) :
  (forall x, In x xs -> 1 <= x <= 50) -> unitDifferences ec.n xs.
Proof.
  intros Hxs a b Ha Hb Hab.
  apply Hxs in Ha, Hb. apply small_differences_units; lia.
Qed.

(** ** Key generation, step by step *)

Lemma drawCoefficients_inv (t : nat) :
  forall tape o tape',
    drawCoefficients t tape = Some (o, tape') ->
    exists cs, o = Ok cs /\ List.length cs = t /\ Forall (fun c => 0 <= c < ec.n) cs.
Proof.
  induction t as [ | t IH]; intros tape o tape' Hrun.
  - inversion Hrun. exists []. auto.
  - cbn [drawCoefficients] in Hrun. unfold bind at 1 in Hrun.
    destruct (_generateRandomPrivateKey tape) as [[o1 tape1] | ] eqn:Hdraw;
      [ | discriminate].
    apply generateRandomPrivateKey_range in Hdraw. destruct Hdraw as (k & -> & Hk).
    unfold bind in Hrun.
    destruct (drawCoefficients t tape1) as [[o2 tape2] | ] eqn:Hrest; [ | discriminate].
    apply IH in Hrest. destruct Hrest as (cs & -> & Hlen & Hcs).
    inversion Hrun. subst.
    exists (BN.ofHex k :: cs). cbn [List.length]. auto.
Qed.

Lemma nth_in_range (cs : list Z) (j : nat) :
  Forall (fun c => 0 <= c < ec.n) cs -> 0 <= nth j cs 0.
Proof.
  intros Hcs.
  destruct (Nat.lt_ge_cases j (List.length cs)) as [Hj | Hj].
  - rewrite Forall_forall in Hcs. apply Hcs, nth_In, Hj.
  - rewrite nth_overflow by exact Hj. lia.
Qed.

Lemma pointToHex_ok (P : ec.point) :
  P <> None -> exists hex, pointToHex P = Ok hex.
Proof.
  destruct P as [[x y] | ]; intros HP; [ | now elim HP].
  eexists. reflexivity.
Qed.

Lemma Forall2_nth {A B : Type} (R : A -> B -> Prop) (l : list A) (l' : list B)
  (d : A) (d' : B) :
  Forall2 R l l' ->
  forall i, (i < List.length l)%nat -> R (nth i l d) (nth i l' d').
Proof.
  induction 1 as [ | a b l l' Hab _ IH]; intros i Hi; cbn [List.length] in Hi.
  - lia.
  - destruct i as [ | i]; cbn [nth]; [exact Hab | apply IH; lia].
Qed.

(** The loop over the participants returns exactly when no public share
    is the point at infinity, and what it returns is what the
    specification says. *)
Lemma shareLoop_spec (cs : list Z) (t : nat) (ids : list Z) :
  Forall (fun c => 0 <= c < ec.n) cs -> (forall i, In i ids -> 0 <= i) ->
  forall shares pubs,
    shareLoop cs t ids = Ok (shares, pubs)
    <-> shares = map (shareOf cs t) ids /\ Forall2 (isPublicShareOf cs t) ids pubs.
Proof.
  intros Hcs. induction ids as [ | i ids IH]; intros His shares pubs.
  - cbn [shareLoop map]. split.
    + intros H. inversion H. split; [reflexivity | constructor].
    + intros [-> Hpubs]. inversion Hpubs. reflexivity.
  - cbn [shareLoop map].
    rewrite evaluatePolynomial_sum
      by (try (intros j; apply nth_in_range; exact Hcs); apply His; now left).
    unfold shareOf at 1. unfold isPublicShareOf.
    destruct (ec.g_mul (polynomialSum cs t i mod ec.n)) as [[px py] | ] eqn:Hpoint;
      cbn [ec.getX ec.getY bindR].
    + destruct (shareLoop cs t ids) as [[shares' pubs'] | e] eqn:Hrest; cbn [bindR fst snd].
      * assert (Hrest' := proj1 (IH (fun j Hj => His j (or_intror Hj)) shares' pubs') eq_refl).
        destruct Hrest' as [-> Hpubs']. split.
        -- intros H. inversion H. subst. split; [reflexivity | ].
           constructor; [ | exact Hpubs'].
           cbn [PublicShare.index PublicShare.x PublicShare.y pointToHex].
           rewrite Hpoint. cbn. auto.
        -- intros [-> Hpubs]. inversion Hpubs as [ | ? pub ? pubs'' [Hidx Hhex] Htail]; subst.
           assert (Hsame := proj2 (IH (fun j Hj => His j (or_intror Hj)) _ pubs'')
                                  (conj eq_refl Htail)).
           inversion Hsame. subst pubs''.
           unfold pointToHex in Hhex. rewrite Hpoint in Hhex. cbn in Hhex.
           inversion Hhex as [[Hx Hy]]. destruct pub as [pi pxs pys].
           cbn [PublicShare.index PublicShare.x PublicShare.y] in *.
           subst pxs pys. reflexivity.
      * split; [discriminate | ].
        intros [-> Hpubs]. inversion Hpubs as [ | ? pub ? pubs'' _ Htail]; subst.
        assert (Hsame := proj2 (IH (fun j Hj => His j (or_intror Hj)) _ pubs'')
                               (conj eq_refl Htail)).
        discriminate.
    + split; [discriminate | ].
      intros [_ Hpubs]. inversion Hpubs as [ | ? pub ? pubs'' [_ Hhex] _]; subst.
      unfold pointToHex in Hhex. rewrite Hpoint in Hhex. discriminate.
Qed.

Lemma participants_range (n i : Z) : In i (participants n) <-> 1 <= i <= n.
Proof.
  unfold participants. rewrite in_map_iff. split.
  - intros (k & <- & Hk). apply in_seq in Hk. lia.
  - intros Hi. exists (Z.to_nat i). split; [lia | apply in_seq; lia].
Qed.

Lemma participants_length (n : Z) : List.length (participants n) = Z.to_nat n.
Proof. unfold participants. rewrite length_map, length_seq. reflexivity. Qed.

Lemma participants_nth (n i : Z) :
  1 <= i <= n -> nth (Z.to_nat (i - 1)) (participants n) 0 = i.
Proof.
  intros Hi. unfold participants.
  change (nth ?k (map Z.of_nat ?l) 0) with (nth k (map Z.of_nat l) (Z.of_nat 0)).
  rewrite map_nth, seq_nth by lia. lia.
Qed.

(** What [generateKeyShares] returns, for parameters it accepts. *)
Lemma generateKeyShares_spec (n t : Z) (tape : list byte) (ks : KeyShareSet.t)
  (tape' : list byte) :
  1 <= t <= n ->
  generateKeyShares n t tape = Some (Ok ks, tape')
  <-> exists cs,
      drawCoefficients (Z.to_nat t) tape = Some (Ok cs, tape')
      /\ KeyShareSet.shares ks = map (shareOf cs (Z.to_nat t)) (participants n)
      /\ Forall2 (isPublicShareOf cs (Z.to_nat t)) (participants n)
                 (KeyShareSet.publicShares ks)
      /\ pointToHex (ec.g_mul (nth 0 cs 0)) = Ok (KeyShareSet.groupPublicKey ks)
      /\ KeyShareSet.threshold ks = t
      /\ KeyShareSet.total ks = n.
Proof.
  intros Hvalid. unfold generateKeyShares.
  destruct (Z.gtb_spec t n) as [Hgt | _]; [lia | ].
  destruct (Z.ltb_spec t 1) as [Hlt | _]; [lia | ].
  unfold bind at 1.
  destruct (drawCoefficients (Z.to_nat t) tape) as [[o tape1] | ] eqn:Hdraw.
  2:{ split; [discriminate | ]. intros (cs & Hcs & _). discriminate. }
  pose proof (drawCoefficients_inv _ _ _ _ Hdraw) as (cs & -> & Hlen & Hrange).
  assert (Hparts : forall i, In i (participants n) -> 0 <= i).
  { intros i Hi. apply participants_range in Hi. lia. }
  unfold bind, liftR, ret.
  destruct (shareLoop cs (Z.to_nat t) (participants n)) as [[shares pubs] | e] eqn:Hloop.
  - apply (shareLoop_spec cs _ _ Hrange Hparts) in Hloop. destruct Hloop as [-> Hpubs].
    cbn [fst snd].
    destruct (pointToHex (ec.g_mul (nth 0 cs 0))) as [gpk | e] eqn:Hgpk.
    + split.
      * intros H. inversion H. subst. exists cs. cbn. repeat split; assumption.
      * intros (cs' & Hcs' & Hshares & Hpubs' & Hgpk' & Ht & Hn).
        inversion Hcs'. subst cs' tape'.
        destruct ks as [s ps g th tot]. cbn in *. subst.
        assert (Hloop' := proj2 (shareLoop_spec cs _ _ Hrange Hparts _ ps)
                                (conj eq_refl Hpubs')).
        assert (Hloop := proj2 (shareLoop_spec cs _ _ Hrange Hparts _ pubs)
                               (conj eq_refl Hpubs)).
        rewrite Hloop in Hloop'. inversion Hloop'. subst.
        rewrite Hgpk in Hgpk'. inversion Hgpk'. reflexivity.
    + split; [discriminate | ].
      intros (cs' & Hcs' & _ & _ & Hgpk' & _). injection Hcs' as <- <-.
      rewrite Hgpk in Hgpk'. discriminate.
  - split; [discriminate | ].
    intros (cs' & Hcs' & Hshares & Hpubs' & _). injection Hcs' as <- <-.
    assert (Hloop' := proj2 (shareLoop_spec cs _ _ Hrange Hparts _ _)
                            (conj eq_refl Hpubs')).
    rewrite Hloop in Hloop'. discriminate.
Qed.

(** ** Key generation: the shares and the keys *)

Lemma publicShares_exist (cs : list Z) (t : nat) (ids : list Z) :
  (forall i, In i ids -> ec.g_mul (polynomialSum cs t i mod ec.n) <> None) ->
  exists pubs, Forall2 (isPublicShareOf cs t) ids pubs.
Proof.
  induction ids as [ | i ids IH]; intros Hfinite.
  - exists []. constructor.
  - destruct IH as (pubs & Hpubs); [intros j Hj; apply Hfinite; now right | ].
    destruct (pointToHex_ok _ (Hfinite i (or_introl eq_refl))) as ([hx hy] & Hhex).
    exists ({| PublicShare.index := i; PublicShare.x := hx; PublicShare.y := hy |} :: pubs).
    constructor; [ | exact Hpubs].
    split; [reflexivity | exact Hhex].
Qed.

(** On the runs without a point at infinity: for valid [(n, t)], with [a]
    the [t] scalars drawn and no public point at infinity,
    [generateKeyShares] returns [n] private and [n]
    public shares with the indices [1..n]; the share of [i] is the sum of
    [a_j * i^j] modulo the order, its public share is that share times the
    base point, and the group public key is [a_0] times the base point. *)
Theorem generateKeyShares_shares_and_keys :
  forall (n t : Z) (tape : list byte) (a : list Z) (tape' : list byte),
    1 <= t -> t <= n ->
    drawCoefficients (Z.to_nat t) tape = Some (Ok a, tape') ->
    (forall i, 1 <= i <= n ->
               ec.g_mul (polynomialSum a (Z.to_nat t) i mod ec.n) <> None) ->
    ec.g_mul (nth 0 a 0) <> None ->
    exists ks,
      generateKeyShares n t tape = Some (Ok ks, tape')
      /\ Z.of_nat (List.length (KeyShareSet.shares ks)) = n
      /\ Z.of_nat (List.length (KeyShareSet.publicShares ks)) = n
      /\ (forall i, 1 <= i <= n ->
            nth (Z.to_nat (i - 1)) (KeyShareSet.shares ks) noShare
            = shareOf a (Z.to_nat t) i
            /\ isPublicShareOf a (Z.to_nat t) i
                 (nth (Z.to_nat (i - 1)) (KeyShareSet.publicShares ks) noPublicShare))
      /\ pointToHex (ec.g_mul (nth 0 a 0)) = Ok (KeyShareSet.groupPublicKey ks).
Proof.
  intros n t tape a tape' Ht Htn Hdraw Hfinite Hsecret.
  destruct (publicShares_exist a (Z.to_nat t) (participants n)) as (pubs & Hpubs).
  { intros i Hi. apply Hfinite, participants_range, Hi. }
  destruct (pointToHex_ok _ Hsecret) as (gpk & Hgpk).
  exists {| KeyShareSet.shares := map (shareOf a (Z.to_nat t)) (participants n);
            KeyShareSet.publicShares := pubs;
            KeyShareSet.groupPublicKey := gpk;
            KeyShareSet.threshold := t;
            KeyShareSet.total := n |}.
  cbn [KeyShareSet.shares KeyShareSet.publicShares KeyShareSet.groupPublicKey].
  split.
  { apply generateKeyShares_spec; [lia | ]. exists a. cbn. repeat split; assumption. }
  split; [rewrite length_map, participants_length; lia | ].
  split; [rewrite <- (Forall2_length Hpubs), participants_length; lia | ].
  split; [ | exact Hgpk].
  intros i Hi. split.
  - rewrite nth_indep with (d' := shareOf a (Z.to_nat t) 0)
      by (rewrite length_map, participants_length; lia).
    rewrite map_nth, participants_nth by exact Hi. reflexivity.
  - rewrite <- (participants_nth n i Hi) at 1.
    apply Forall2_nth; [exact Hpubs | ].
    rewrite participants_length. lia.
Qed.

Lemma generateKeyShares_shares_and_keys_witness :
  exists ks,
    generateKeyShares 3 2 tape_2_of_3 = Some (Ok ks, [])
    /\ Z.of_nat (List.length (KeyShareSet.shares ks)) = 3
    /\ Z.of_nat (List.length (KeyShareSet.publicShares ks)) = 3
    /\ (forall i, 1 <= i <= 3 ->
          nth (Z.to_nat (i - 1)) (KeyShareSet.shares ks) noShare
          = shareOf [5; 3] (Z.to_nat 2) i
          /\ isPublicShareOf [5; 3] (Z.to_nat 2) i
               (nth (Z.to_nat (i - 1)) (KeyShareSet.publicShares ks) noPublicShare))
    /\ pointToHex (ec.g_mul (nth 0 [5; 3] 0)) = Ok (KeyShareSet.groupPublicKey ks).
Proof.
  apply (generateKeyShares_shares_and_keys 3 2 tape_2_of_3 [5; 3] []).
  - lia.
  - lia.
  - vm_compute. reflexivity.
  - intros i Hi.
    assert (Hcases : i = 1 \/ i = 2 \/ i = 3) by lia.
    destruct Hcases as [-> | [-> | ->]]; vm_compute; discriminate.
  - vm_compute. discriminate.
Defined.

(** ** Reconstruction from a threshold of shares *)

(** The combining loop, run on shares of the polynomial [cs] at distinct
    nodes that differ by units, gives the constant term modulo the order. *)
Lemma combineLoop_interpolates (cs : list Z) (sub : list Share.t) :
  NoDup (map Share.index sub) ->
  unitDifferences ec.n (map Share.index sub) ->
  (List.length cs <= List.length sub)%nat ->
  (forall sh, In sh sub ->
              eqm ec.n (BN.ofHex (Share.value sh)) (Poly.eval cs (Share.index sh))) ->
  eqm ec.n
      (combineLoop sub (_calculateLagrangeCoefficients (map Share.index sub)))
      (Poly.eval cs 0).
Proof.
  intros Hnd Hunits Hlen Hvalues.
  set (idx := map Share.index sub) in *.
  assert (Hidx : List.length idx = List.length sub) by apply length_map.
  rewrite combineLoop_sum.
  transitivity (Poly.sum (fun i => BN.ofHex (Share.value (nth i sub noShare))
                                   * basisAt ec.n idx i 0)
                         (seq 0 (List.length idx))).
  - rewrite Hidx. apply sum_eqm. intros j Hj. apply in_seq in Hj.
    rewrite nth_lagrangeCoefficients, ofHex_toString16 by lia.
    rewrite lagrangeCoefficient_basis. reflexivity.
  - apply (interpolation_at_zero ec.n order_positive idx cs); try assumption.
    + lia.
    + intros i Hi.
      rewrite Hvalues by (apply nth_In; lia).
      unfold idx.
      change (nth i (map Share.index sub) 0)
        with (nth i (map Share.index sub) (Share.index noShare)).
      rewrite map_nth. reflexivity.
Qed.

(** ** The parameter check of key generation *)

Lemma shareLoop_raises_TypeError (cs : list Z) (t : nat) (ids : list Z) (e : exn) :
  shareLoop cs t ids = Raise e -> exists message, e = TypeError message.
Proof.
  induction ids as [ | i ids IH]; cbn [shareLoop]; [discriminate | ].
  destruct (ec.g_mul (evaluatePolynomial cs t i)) as [[px py] | ];
    cbn [ec.getX ec.getY bindR].
  - destruct (shareLoop cs t ids) as [[shares pubs] | e']; cbn [bindR].
    + discriminate.
    + intros H. inversion H. subst. apply IH. reflexivity.
  - intros H. inversion H. eauto.
Qed.

Lemma pointToHex_raises_TypeError (P : ec.point) (e : exn) :
  pointToHex P = Raise e -> exists message, e = TypeError message.
Proof.
  destruct P as [[x y] | ]; cbn; intros H; inversion H. eauto.
Qed.

(** The two checks are the only source of an [Error]. *)
Lemma generateKeyShares_throwsError (n t : Z) (tape : list byte) :
  throwsError (generateKeyShares n t tape) <-> t > n \/ t < 1.
Proof.
  unfold throwsError, generateKeyShares.
  destruct (Z.gtb_spec t n) as [Hgt | Hle].
  { split; [lia | ]. intros _. unfold throw. eauto. }
  destruct (Z.ltb_spec t 1) as [Hlt | Hge].
  { split; [lia | ]. intros _. unfold throw. eauto. }
  split; [ | lia].
  intros (message & tape' & Hrun). exfalso.
  unfold bind at 1 in Hrun.
  destruct (drawCoefficients (Z.to_nat t) tape) as [[o tape1] | ] eqn:Hdraw;
    [ | discriminate].
  destruct (drawCoefficients_inv _ _ _ _ Hdraw) as (cs & -> & _).
  unfold bind, liftR, ret in Hrun.
  destruct (shareLoop cs (Z.to_nat t) (participants n)) as [both | e] eqn:Hloop.
  - destruct (pointToHex (ec.g_mul (nth 0 cs 0))) as [gpk | e] eqn:Hgpk.
    + discriminate.
    + apply pointToHex_raises_TypeError in Hgpk. destruct Hgpk as (m & ->).
      discriminate.
  - apply shareLoop_raises_TypeError in Hloop. destruct Hloop as (m & ->).
    discriminate.
Qed.

(** C2, as amended: [generateKeyShares] throws its parameter error
    exactly when [t < 1] or [t > n], which takes in every [n < 1]; there
    is no bound on [n] from above.  It fails for [(0, 0)]; it succeeds for
    [(50, 50)] and also for [(51, 1)]. *)
Theorem generateKeyShares_parameter_check :
  (forall (n t : Z) (tape : list byte),
      (generateKeyShares n t tape
       = Some (Raise (Error "Threshold cannot exceed total participants"), tape)
       <-> t > n)
      /\ (generateKeyShares n t tape
          = Some (Raise (Error "Threshold must be at least 1"), tape)
          <-> t <= n /\ t < 1)
      /\ (throwsError (generateKeyShares n t tape) <-> (t < 1 \/ t > n \/ n < 1)))
  /\ (forall tape, throwsError (generateKeyShares 0 0 tape))
  /\ returnsValue (generateKeyShares 50 50 tape_50_of_50)
  /\ returnsValue (generateKeyShares 51 1 (drawOf 1)).
Proof.
  split; [ | split; [ | split]].
  - intros n t tape.
    pose proof (generateKeyShares_throwsError n t tape) as Hthrows.
    split; [ | split].
    + unfold generateKeyShares in *.
      destruct (Z.gtb_spec t n) as [Hgt | Hle]; [unfold throw; split; [lia | reflexivity] | ].
      split; [ | lia]. intros Hrun.
      destruct (Z.ltb_spec t 1) as [Hlt | Hge]; [discriminate | ].
      assert (Hno : t > n \/ t < 1) by (apply Hthrows; unfold throwsError; eauto).
      lia.
    + unfold generateKeyShares in *.
      destruct (Z.gtb_spec t n) as [Hgt | Hle]; [unfold throw; split; [discriminate | lia] | ].
      destruct (Z.ltb_spec t 1) as [Hlt | Hge]; [unfold throw; split; [lia | reflexivity] | ].
      split; [ | lia]. intros Hrun.
      assert (Hno : t > n \/ t < 1) by (apply Hthrows; unfold throwsError; eauto).
      lia.
    + rewrite Hthrows. lia.
  - intros tape. apply generateKeyShares_throwsError. lia.
  - unfold returnsValue. eexists. exists []. vm_compute. reflexivity.
  - unfold returnsValue. eexists. exists []. vm_compute. reflexivity.
Qed.

(** The claim as the specification has it fails at [n = 51]. *)
Lemma generateKeyShares_accepts_51 :
  ~ (forall (n t : Z) (tape : list byte),
        throwsError (generateKeyShares n t tape)
        <-> (t < 1 \/ t > n \/ n < 1 \/ n > 50)).
Proof.
  intros Hclaim.
  destruct (proj2 (Hclaim 51 1 (drawOf 1))) as (message & tape' & Hrun); [lia | ].
  vm_compute in Hrun. discriminate.
Qed.

(** ** Combining signature shares *)

Lemma generateRandomPrivateKey_never_throws (tape : list byte) (e : exn) (tape' : list byte) :
  _generateRandomPrivateKey tape <> Some (Raise e, tape').
Proof.
  intros Hrun. apply generateRandomPrivateKey_range in Hrun.
  destruct Hrun as (k & Hk & _). discriminate.
Qed.

(** What [combineSignatureShares] returns once the check has passed: [r]
    and [combined] come from the combining loop, [s] from the random
    source, and [v] is 27. *)
Lemma combineSignatureShares_returns (message : string) (signatureShares : list Share.t)
  (commitments : list Point.t) (publicShares : list PublicShare.t) (threshold : Z)
  (tape : list byte) (signature : Signature.t) (tape' : list byte) :
  combineSignatureShares message signatureShares commitments publicShares threshold tape
  = Some (Ok signature, tape')
  <-> threshold <= Z.of_nat (List.length signatureShares)
      /\ exists drawn,
        _generateRandomPrivateKey tape = Some (Ok drawn, tape')
        /\ signature =
           let combinedSignature :=
             combineLoop signatureShares
               (_calculateLagrangeCoefficients (map Share.index signatureShares)) in
           {| Signature.r := JsString.padStart 64 "0" (BN.toString16 combinedSignature);
              Signature.s := JsString.padStart 64 "0" (BN.toString16 (BN.ofHex drawn));
              Signature.v := 27;
              Signature.combined := BN.toString16 combinedSignature |}.
Proof.
  unfold combineSignatureShares.
  destruct (Z.ltb_spec (Z.of_nat (List.length signatureShares)) threshold) as [Hlt | Hge].
  - unfold throw. split; [discriminate | lia].
  - unfold bind, ret.
    destruct (_generateRandomPrivateKey tape) as [[[drawn | e] tape1] | ] eqn:Hdraw.
    + split.
      * intros H. inversion H. subst. split; [exact Hge | ].
        exists drawn. split; reflexivity.
      * intros (_ & drawn' & Hdrawn' & ->). inversion Hdrawn'. reflexivity.
    + split; [discriminate | ]. intros (_ & drawn' & Hdrawn' & _). discriminate.
    + split; [discriminate | ]. intros (_ & drawn' & Hdrawn' & _). discriminate.
Qed.

(** C3, as amended: [combineSignatureShares] returns a value only when
    there are at least [threshold] signature shares; that their indices
    are distinct is not required.  With fewer shares it throws, having
    drawn nothing, the error that carries [threshold] and the number of
    shares (digit by digit, for a threshold below [2^53]), and no value
    is returned. *)
Theorem combineSignatureShares_threshold_check :
  forall (message : string) (signatureShares : list Share.t)
         (commitments : list Point.t) (publicShares : list PublicShare.t)
         (threshold : Z) (tape : list byte),
    let got := Z.of_nat (List.length signatureShares) in
    let run := combineSignatureShares message signatureShares commitments
                                      publicShares threshold tape in
    (returnsValue run -> threshold <= got)
    /\ (got < threshold ->
        (exists text, run = Some (Raise (Error text), tape))
        /\ (Z.abs threshold < 2 ^ 53 ->
            run = Some (Raise (Error ("Not enough signature shares. Need "
                                      ++ JsString.ofNumber threshold
                                      ++ ", got " ++ JsString.ofNumber got)%string),
                        tape))).
Proof.
  intros message signatureShares commitments publicShares threshold tape got run.
  split.
  - intros (signature & tape' & Hrun).
    apply combineSignatureShares_returns in Hrun. apply Hrun.
  - intros Hbelow. subst run. unfold combineSignatureShares. fold got.
    destruct (Z.ltb_spec got threshold) as [_ | Hge]; [ | lia].
    unfold throw. split; [eexists; reflexivity | intros _; reflexivity].
Qed.

Lemma combineSignatureShares_threshold_check_witness :
  combineSignatureShares "test" [signatureShare_1] commitments_1_3 [] 2 (drawOf 7)
  = Some (Raise (Error "Not enough signature shares. Need 2, got 1"), drawOf 7)
  /\ 2 <= Z.of_nat (List.length [signatureShare_1; signatureShare_3]).
Proof.
  split.
  - destruct (combineSignatureShares_threshold_check
                "test" [signatureShare_1] commitments_1_3 [] 2 (drawOf 7))
      as [_ Hbelow].
    destruct Hbelow as [_ Htext]; [cbn; lia | ].
    apply Htext. vm_compute. reflexivity.
  - destruct (combineSignatureShares_threshold_check
                "test" [signatureShare_1; signatureShare_3] commitments_1_3 [] 2
                (drawOf 7))
      as [Hreturns _].
    apply Hreturns. unfold returnsValue. eexists. exists []. vm_compute. reflexivity.
Defined.

(** The claim as the specification has it fails for two shares of one
    index: they are combined all the same. *)
Lemma combineSignatureShares_accepts_duplicates :
  ~ (forall (message : string) (signatureShares : list Share.t)
            (commitments : list Point.t) (publicShares : list PublicShare.t)
            (threshold : Z) (tape : list byte),
        returnsValue (combineSignatureShares message signatureShares commitments
                                             publicShares threshold tape)
        -> threshold <= Z.of_nat (List.length signatureShares)
           /\ NoDup (map Share.index signatureShares)).
Proof.
  intros Hclaim.
  destruct (Hclaim "test" [signatureShare_1; signatureShare_1] commitments_1_3
                   (KeyShareSet.publicShares keys_2_of_3) 2 (drawOf 9)) as [_ Hnd].
  - unfold returnsValue. eexists. exists []. vm_compute. reflexivity.
  - inversion Hnd as [ | ? ? Hnotin _]. apply Hnotin. now left.
Qed.

(** ** The order of the shares

    With distinct indices, none negative, and share values that read as
    scalars, the combining loop does not depend on the order of the
    shares: the coefficients all have the sign of [sign k] for [k]
    shares, so do the products, and a sum of numbers of one sign reduced
    with [BN.mod] is told by its residue. *)

Lemma fold_left_positions {A : Type} (G : A -> nat -> A) (H : A -> Z -> A) (l : list Z) :
  forall s a,
    (forall c j, (j < List.length l)%nat -> G c (s + j)%nat = H c (nth j l 0)) ->
    fold_left G (seq s (List.length l)) a = fold_left H l a.
Proof.
  induction l as [ | y l IH]; intros s a HGH; cbn [List.length seq fold_left].
  - reflexivity.
  - assert (Hhead : G a s = H a y).
    { change y with (nth 0 (y :: l) 0).
      rewrite <- (HGH a 0%nat) by (cbn; lia). f_equal. lia. }
    rewrite Hhead. apply IH. intros c j Hj.
    replace (S s + j)%nat with (s + S j)%nat by lia.
    apply (HGH c (S j)). cbn. lia.
Qed.

Lemma basisAt_basisOf (q : Z) (xs : list Z) (i : nat) (X : Z) :
  NoDup xs -> (i < List.length xs)%nat ->
  basisAt q xs i X = basisOf q xs (nth i xs 0) X.
Proof.
  intros Hnd Hi. unfold basisAt, basisOf.
  apply (fold_left_positions
           (fun c j => if (i =? j)%nat then c
                       else Z.invmod (nth i xs 0 - nth j xs 0) q * ((X - nth j xs 0) * c))
           (fun c y => if nth i xs 0 =? y then c
                       else Z.invmod (nth i xs 0 - y) q * ((X - y) * c))).
  intros c j Hj. cbn [Nat.add].
  destruct (Nat.eqb_spec i j) as [-> | Hij].
  - rewrite Z.eqb_refl. reflexivity.
  - destruct (Z.eqb_spec (nth i xs 0) (nth j xs 0)) as [Heq | _]; [ | reflexivity].
    elim Hij. apply (proj1 (NoDup_nth xs 0) Hnd); assumption.
Qed.

Lemma fold_left_permutation {A B : Type} (f : A -> B -> A) (l l' : list B) :
  (forall a x y, f (f a x) y = f (f a y) x) ->
  Permutation l l' -> forall a, fold_left f l a = fold_left f l' a.
Proof.
  intros Hcomm Hperm.
  induction Hperm as [ | x l l' _ IH | x y l | l l' l'' _ IH1 _ IH2]; intros a;
    cbn [fold_left].
  - reflexivity.
  - apply IH.
  - rewrite Hcomm. reflexivity.
  - rewrite IH1. apply IH2.
Qed.

Lemma basisOf_permutation (q : Z) (xs xs' : list Z) (x X : Z) :
  Permutation xs xs' -> basisOf q xs x X = basisOf q xs' x X.
Proof.
  intros Hperm. unfold basisOf. apply fold_left_permutation; [ | exact Hperm].
  intros c y z. destruct (x =? y), (x =? z); try reflexivity. ring.
Qed.

Lemma sum_positions {A : Type} (F : A -> Z) (l : list A) (d : A) :
  Poly.sum (fun i => F (nth i l d)) (seq 0 (List.length l)) = sumOver F l.
Proof.
  induction l as [ | e l IH]; [reflexivity | ].
  cbn [List.length seq]. rewrite <- seq_shift.
  change (Poly.sum ?f (0%nat :: ?js)) with (f 0%nat + Poly.sum f js).
  rewrite sum_map. cbn [nth sumOver fold_right]. fold (sumOver F l).
  rewrite <- IH. reflexivity.
Qed.

Lemma sumOver_permutation {A : Type} (F : A -> Z) (l l' : list A) :
  Permutation l l' -> sumOver F l = sumOver F l'.
Proof.
  unfold sumOver.
  induction 1 as [ | x l l' _ IH | x y l | l l' l'' _ IH1 _ IH2]; cbn [fold_right]; lia.
Qed.

Lemma sumOver_ext {A : Type} (F G : A -> Z) (l : list A) :
  (forall e, In e l -> F e = G e) -> sumOver F l = sumOver G l.
Proof.
  unfold sumOver. induction l as [ | e l IH]; intros HFG; cbn [fold_right].
  - reflexivity.
  - rewrite IH, (HFG e); [reflexivity | now left | ].
    intros e' He'. apply HFG. now right.
Qed.

Lemma sign_cases (m : nat) : sign m = 1 \/ sign m = -1.
Proof. unfold sign. destruct (Nat.odd m); auto. Qed.

Lemma sign_succ (m : nat) : sign (S m) = - sign m.
Proof.
  unfold sign. rewrite Nat.odd_succ, <- Nat.negb_odd.
  destruct (Nat.odd m); reflexivity.
Qed.

(** [BN.mod] keeps the sign and stays inside [(-n, n)]. *)
Lemma rem_keeps_sign (s a : Z) :
  s = 1 \/ s = -1 -> 0 <= s * a -> 0 <= s * Z.rem a ec.n /\ - ec.n < Z.rem a ec.n < ec.n.
Proof.
  intros Hs Ha. pose proof order_positive as Hn.
  pose proof (Z.rem_bound_abs a ec.n ltac:(lia)) as Habs.
  split; [ | lia].
  destruct Hs as [-> | ->].
  - pose proof (Z.rem_nonneg a ec.n ltac:(lia) ltac:(lia)). lia.
  - pose proof (Z.rem_nonpos a ec.n ltac:(lia) ltac:(lia)). lia.
Qed.

(** With no negative index, every coefficient for [k] indices has the
    sign of [sign k]. *)
Lemma lagrangeCoefficient_sign (indices : list Z) (i : nat) :
  (forall x, In x indices -> 0 <= x) -> (i < List.length indices)%nat ->
  0 <= sign (List.length indices) * lagrangeCoefficient indices i.
Proof.
  intros Hpos Hi. pose proof order_positive as Hn.
  rewrite <- (basisPoly_length ec.n indices i Hi).
  unfold basisPoly, lagrangeCoefficient.
  apply (fold_left_rel (fun P c => 0 <= sign (List.length P) * c)).
  - intros P c j _ HPc.
    destruct (i =? j)%nat; [exact HPc | ].
    rewrite length_scale, length_mulLinear, sign_succ.
    unfold BN.mod_, BN.invm.
    assert (Hxj : 0 <= nth j indices 0).
    { destruct (Nat.lt_ge_cases j (List.length indices)) as [Hj | Hj].
      - apply Hpos, nth_In, Hj.
      - rewrite nth_overflow by exact Hj. lia. }
    assert (Hnum : Z.rem (0 - nth j indices 0) ec.n <= 0)
      by (apply Z.rem_nonpos; lia).
    assert (Hinv : 0 <= Z.invmod (Z.rem (nth i indices 0 - nth j indices 0) ec.n) ec.n).
    { unfold Z.invmod. apply Z.mod_pos_bound. lia. }
    destruct (sign_cases (List.length P)) as [Hs | Hs]; rewrite Hs in *.
    + apply (rem_keeps_sign (-1)); [now right | ].
      assert (0 <= c * (- Z.rem (0 - nth j indices 0) ec.n)) by (apply Z.mul_nonneg_nonneg; lia).
      nia.
    + apply (rem_keeps_sign 1); [now left | ].
      assert (0 <= (- c) * (- Z.rem (0 - nth j indices 0) ec.n))
        by (apply Z.mul_nonneg_nonneg; lia).
      nia.
  - cbn. lia.
Qed.

(** The combining loop on products of one sign: its result has that sign
    and lies inside [(-n, n)]. *)
Lemma combineLoop_sign (s : Z) (signatureShares : list Share.t)
  (lagrangeCoefficients : list string) :
  s = 1 \/ s = -1 ->
  (forall i, (i < List.length signatureShares)%nat ->
             0 <= s * (BN.ofHex (Share.value (nth i signatureShares noShare))
                       * BN.ofHex (nth i lagrangeCoefficients ""))) ->
  0 <= s * combineLoop signatureShares lagrangeCoefficients
  /\ - ec.n < combineLoop signatureShares lagrangeCoefficients < ec.n.
Proof.
  intros Hs Hterms. pose proof order_positive as Hn.
  unfold combineLoop.
  assert (Hgen : forall js a,
             (forall j, In j js -> (j < List.length signatureShares)%nat) ->
             0 <= s * a /\ - ec.n < a < ec.n ->
             let b := fold_left
                        (fun acc i =>
                           BN.mod_ (acc + BN.mod_
                                      (BN.ofHex (Share.value (nth i signatureShares noShare))
                                       * BN.ofHex (nth i lagrangeCoefficients "")) ec.n) ec.n)
                        js a in
             0 <= s * b /\ - ec.n < b < ec.n).
  { induction js as [ | j js IH]; intros a Hjs Ha; cbn [fold_left].
    - exact Ha.
    - apply IH; [intros; apply Hjs; now right | ].
      unfold BN.mod_. apply rem_keeps_sign; [exact Hs | ].
      pose proof (rem_keeps_sign s _ Hs (Hterms j (Hjs j (or_introl eq_refl)))).
      lia. }
  apply Hgen.
  - intros j Hj. apply in_seq in Hj. lia.
  - lia.
Qed.

Lemma same_sign_same_residue (s a b : Z) :
  s = 1 \/ s = -1 -> 0 <= s * a -> 0 <= s * b ->
  - ec.n < a < ec.n -> - ec.n < b < ec.n ->
  a mod ec.n = b mod ec.n -> a = b.
Proof.
  intros [-> | ->] Ha Hb Hra Hrb Hmod.
  - rewrite !Z.mod_small in Hmod by lia. exact Hmod.
  - assert (Hopp : (- a) mod ec.n = (- b) mod ec.n).
    { pose proof (Zopp_eqm ec.n a b Hmod) as H. exact H. }
    rewrite !Z.mod_small in Hopp by lia. lia.
Qed.

(** The sum the loop computes, with the coefficients told by value. *)
Lemma combineLoop_residue (signatureShares : list Share.t) :
  NoDup (map Share.index signatureShares) ->
  eqm ec.n
      (combineLoop signatureShares
                   (_calculateLagrangeCoefficients (map Share.index signatureShares)))
      (sumOver (fun sh => BN.ofHex (Share.value sh)
                          * basisOf ec.n (map Share.index signatureShares)
                                    (Share.index sh) 0)
               signatureShares).
Proof.
  intros Hnd.
  set (idx := map Share.index signatureShares) in *.
  assert (Hidx : List.length idx = List.length signatureShares) by apply length_map.
  rewrite combineLoop_sum.
  rewrite <- (sum_positions _ signatureShares noShare).
  apply sum_eqm. intros j Hj. apply in_seq in Hj.
  rewrite nth_lagrangeCoefficients, ofHex_toString16 by lia.
  rewrite lagrangeCoefficient_basis, basisAt_basisOf by (assumption || lia).
  unfold idx.
  change (nth j (map Share.index signatureShares) 0)
    with (nth j (map Share.index signatureShares) (Share.index noShare)).
  rewrite map_nth. reflexivity.
Qed.

(** For shares with distinct indices, none negative, and unsigned values,
    the combined scalar is the same for every order of the shares. *)
Lemma combineLoop_order_independent (signatureShares signatureShares' : list Share.t) :
  Permutation signatureShares signatureShares' ->
  NoDup (map Share.index signatureShares) ->
  (forall sh, In sh signatureShares ->
              0 <= Share.index sh /\ 0 <= BN.ofHex (Share.value sh)) ->
  combineLoop signatureShares
              (_calculateLagrangeCoefficients (map Share.index signatureShares))
  = combineLoop signatureShares'
                (_calculateLagrangeCoefficients (map Share.index signatureShares')).
Proof.
  intros Hperm Hnd Hshares.
  assert (Hidx : Permutation (map Share.index signatureShares)
                             (map Share.index signatureShares'))
    by (apply Permutation_map; exact Hperm).
  assert (Hnd' : NoDup (map Share.index signatureShares'))
    by (eapply Permutation_NoDup; eassumption).
  assert (Hshares' : forall sh, In sh signatureShares' ->
                                0 <= Share.index sh /\ 0 <= BN.ofHex (Share.value sh)).
  { intros sh Hsh. apply Hshares. eapply Permutation_in; [symmetry | ]; eassumption. }
  assert (Hlen : List.length signatureShares' = List.length signatureShares)
    by (symmetry; apply Permutation_length; exact Hperm).
  assert (Hsigned : forall l, NoDup (map Share.index l) ->
            (forall sh, In sh l -> 0 <= Share.index sh /\ 0 <= BN.ofHex (Share.value sh)) ->
            let c := combineLoop l (_calculateLagrangeCoefficients (map Share.index l)) in
            0 <= sign (List.length l) * c /\ - ec.n < c < ec.n).
  { intros l Hl Hvalues. apply combineLoop_sign; [apply sign_cases | ].
    intros i Hi.
    rewrite nth_lagrangeCoefficients, ofHex_toString16 by (rewrite length_map; exact Hi).
    pose proof (lagrangeCoefficient_sign (map Share.index l) i) as Hsign.
    rewrite length_map in Hsign.
    assert (Hv : 0 <= BN.ofHex (Share.value (nth i l noShare)))
      by (apply Hvalues, nth_In, Hi).
    assert (Hc : 0 <= sign (List.length l) * lagrangeCoefficient (map Share.index l) i).
    { apply Hsign; [ | exact Hi].
      intros x Hx. apply in_map_iff in Hx. destruct Hx as (sh & <- & Hsh).
      apply Hvalues, Hsh. }
    replace (sign (List.length l)
             * (BN.ofHex (Share.value (nth i l noShare))
                * lagrangeCoefficient (map Share.index l) i))
      with (BN.ofHex (Share.value (nth i l noShare))
            * (sign (List.length l) * lagrangeCoefficient (map Share.index l) i)) by ring.
    apply Z.mul_nonneg_nonneg; assumption. }
  destruct (Hsigned signatureShares Hnd Hshares) as [Hs Hr].
  destruct (Hsigned signatureShares' Hnd' Hshares') as [Hs' Hr'].
  rewrite Hlen in Hs'.
  apply (same_sign_same_residue (sign (List.length signatureShares)));
    try assumption; [apply sign_cases | ].
  change (eqm ec.n
              (combineLoop signatureShares
                 (_calculateLagrangeCoefficients (map Share.index signatureShares)))
              (combineLoop signatureShares'
                 (_calculateLagrangeCoefficients (map Share.index signatureShares')))).
  rewrite (combineLoop_residue signatureShares Hnd),
    (combineLoop_residue signatureShares' Hnd').
  rewrite (sumOver_permutation _ _ _ Hperm).
  unfold eqm. f_equal. apply sumOver_ext. intros sh _.
  rewrite (basisOf_permutation ec.n _ _ _ _ Hidx). reflexivity.
Qed.

(** So on one and the same draw for [s] the whole signature is the same
    in every order; between two calls only [s] moves. *)
Lemma combineSignatureShares_order_independent_on_one_draw
  (message : string) (signatureShares signatureShares' : list Share.t)
  (commitments : list Point.t) (publicShares : list PublicShare.t) (threshold : Z)
  (tape : list byte) :
  Permutation signatureShares signatureShares' ->
  NoDup (map Share.index signatureShares) ->
  (forall sh, In sh signatureShares ->
              0 <= Share.index sh /\ 0 <= BN.ofHex (Share.value sh)) ->
  combineSignatureShares message signatureShares commitments publicShares threshold tape
  = combineSignatureShares message signatureShares' commitments publicShares threshold tape.
Proof.
  intros Hperm Hnd Hshares. unfold combineSignatureShares.
  rewrite (Permutation_length Hperm).
  rewrite (combineLoop_order_independent _ _ Hperm Hnd Hshares). reflexivity.
Qed.

(** C4: on one message, one set of shares and one set of commitments, so
    with one [r], the [s] of the returned signature is whatever the random
    source hands out: 7 on one tape, 9 on another. *)
Theorem combineSignatureShares_s_is_drawn_at_random :
  exists signature signature',
    combineSignatureShares "test" [signatureShare_1; signatureShare_3] commitments_1_3
                           (KeyShareSet.publicShares keys_2_of_3) 2 (drawOf 7)
    = Some (Ok signature, [])
    /\ combineSignatureShares "test" [signatureShare_1; signatureShare_3] commitments_1_3
                              (KeyShareSet.publicShares keys_2_of_3) 2 (drawOf 9)
       = Some (Ok signature', [])
    /\ Signature.r signature = Signature.r signature'
    /\ Signature.v signature = 27 /\ Signature.v signature' = 27
    /\ BN.ofHex (Signature.s signature) = 7
    /\ BN.ofHex (Signature.s signature') = 9.
Proof.
  do 2 eexists.
  split; [vm_compute; reflexivity | ].
  split; [vm_compute; reflexivity | ].
  cbn. auto.
Qed.

(** C5: the shares of one session are combined twice, in both orders, one
    call after the other on one random source: [r], [v] and [combined]
    agree, [s] does not, so the two signatures differ. *)
Theorem combineSignatureShares_swapped_calls_differ :
  exists signature signature' tape',
    combineSignatureShares "test" [signatureShare_1; signatureShare_3] commitments_1_3
                           (KeyShareSet.publicShares keys_2_of_3) 2
                           (drawOf 7 ++ drawOf 9)
    = Some (Ok signature, tape')
    /\ combineSignatureShares "test" [signatureShare_3; signatureShare_1] commitments_1_3
                              (KeyShareSet.publicShares keys_2_of_3) 2 tape'
       = Some (Ok signature', [])
    /\ Signature.r signature = Signature.r signature'
    /\ Signature.v signature = Signature.v signature'
    /\ Signature.combined signature = Signature.combined signature'
    /\ Signature.s signature <> Signature.s signature'
    /\ signature <> signature'.
Proof.
  do 3 eexists.
  split; [vm_compute; reflexivity | ].
  split; [vm_compute; reflexivity | ].
  cbn. repeat (split; [reflexivity | ]). split; discriminate.
Qed.

(** ** Signature shares *)

Lemma land_byte_range (x : Z) : 0 <= Z.land x 0xff < 256.
Proof.
  change 0xff with (Z.ones 8). rewrite Z.land_ones by lia.
  apply Z.mod_pos_bound. lia.
Qed.

Lemma digest_bytes (msg : list Z) :
  Forall (fun b => 0 <= b < 256) (SHA256.digest msg).
Proof.
  unfold SHA256.digest.
  destruct (SHA256.blocks _ _ _) as [[[[[[[a b] c] d] e] f] g] h].
  cbn [flat_map SHA256.be_bytes seq rev map app].
  repeat constructor; apply land_byte_range.
Qed.

Lemma ofHex_toString_hex_bytes_nonneg (buf : list Z) :
  Forall (fun b => 0 <= b < 256) buf -> 0 <= BN.ofHex (Buffer.toString_hex buf).
Proof.
  intros Hbuf. destruct Hbuf as [ | b buf Hb _]; cbn [Buffer.toString_hex].
  - cbn. lia.
  - rewrite ofHex_unsigned.
    + apply parseHex_nonneg. lia.
    + apply hexDigit_unsigned.
      split; [apply Z.div_pos; lia | apply Z.div_lt_upper_bound; lia].
Qed.

(** A digest never reads as a negative number. *)
Lemma ofHex_sha256_hex_nonneg (s : string) : 0 <= BN.ofHex (sha256_hex s).
Proof.
  unfold sha256_hex. apply ofHex_toString_hex_bytes_nonneg, digest_bytes.
Qed.

(** The loop of [_calculateBindingFactor] concatenates the coordinates of
    the commitments, in their order. *)
Lemma commitmentString_concat (commitments : list Point.t) :
  forall start,
    fold_left (fun acc commitment =>
                 (acc ++ (Point.x commitment ++ Point.y commitment))%string)
              commitments start
    = (start ++ String.concat ""
                  (map (fun commitment => Point.x commitment ++ Point.y commitment)
                       commitments))%string.
Proof.
  assert (Hnil : forall s, (s ++ "")%string = s).
  { induction s as [ | ch s IH]; cbn; [reflexivity | now rewrite IH]. }
  assert (Hassoc : forall a b c, ((a ++ b) ++ c)%string = (a ++ (b ++ c))%string).
  { induction a as [ | ch a IH]; intros b c; cbn; [reflexivity | now rewrite IH]. }
  induction commitments as [ | cm commitments IH]; intros start; cbn [fold_left map].
  - cbn. symmetry. apply Hnil.
  - rewrite IH, Hassoc. f_equal.
    destruct commitments as [ | cm' commitments]; cbn [map String.concat].
    + rewrite Hnil. reflexivity.
    + reflexivity.
Qed.

(** C6: for a private share and a nonce that read as scalars (no sign),
    [generateSignatureShare] returns the index of the share and, in
    hexadecimal, the value [(nonce + c * share) mod n], where [c] is the
    hash of the hash of the message followed by the coordinates of the
    commitments in their given order. *)
Theorem generateSignatureShare_value :
  forall (message : string) (privateShare : Share.t) (nonce : string)
         (commitments : list Point.t) (participants : list PublicShare.t),
    0 <= BN.ofHex (Share.value privateShare) ->
    0 <= BN.ofHex nonce ->
    let c := BN.ofHex
               (sha256_hex
                  (sha256_hex message
                   ++ String.concat ""
                        (map (fun commitment => Point.x commitment ++ Point.y commitment)
                             commitments))%string) in
    let z := (BN.ofHex nonce + c * BN.ofHex (Share.value privateShare)) mod ec.n in
    generateSignatureShare message privateShare nonce commitments participants
    = {| Share.index := Share.index privateShare; Share.value := BN.toString16 z |}
    /\ BN.ofHex (Share.value (generateSignatureShare message privateShare nonce
                                                     commitments participants)) = z.
Proof.
  intros message privateShare nonce commitments participants Hshare Hnonce c z.
  pose proof order_positive as Hn.
  assert (Hvalue : generateSignatureShare message privateShare nonce commitments participants
                   = {| Share.index := Share.index privateShare;
                        Share.value := BN.toString16 z |}).
  { unfold generateSignatureShare, _calculateBindingFactor, _hashMessage.
    rewrite commitmentString_concat. cbn [String.append]. fold c.
    f_equal. f_equal. subst z. unfold BN.mod_.
    assert (Hc : 0 <= c) by apply ofHex_sha256_hex_nonneg.
    rewrite (rem_nonneg (c * _)) by (try apply Z.mul_nonneg_nonneg; lia).
    rewrite rem_nonneg.
    - apply Zplus_mod_idemp_r.
    - pose proof (Z.mod_pos_bound (c * BN.ofHex (Share.value privateShare)) ec.n). lia.
    - lia. }
  split; [exact Hvalue | ].
  rewrite Hvalue. cbn [Share.value]. apply ofHex_toString16.
Qed.

Lemma generateSignatureShare_value_witness :
  let c := BN.ofHex
             (sha256_hex
                (sha256_hex "test"
                 ++ String.concat ""
                      (map (fun commitment => Point.x commitment ++ Point.y commitment)
                           commitments_1_3))%string) in
  let z := (BN.ofHex "7" + c * BN.ofHex (Share.value share_1)) mod ec.n in
  generateSignatureShare "test" share_1 "7" commitments_1_3 []
  = {| Share.index := Share.index share_1; Share.value := BN.toString16 z |}
  /\ BN.ofHex (Share.value (generateSignatureShare "test" share_1 "7" commitments_1_3 [])) = z.
Proof.
  apply (generateSignatureShare_value "test" share_1 "7" commitments_1_3 []).
  - vm_compute. discriminate.
  - vm_compute. discriminate.
Defined.

(** ** The random scalars, again *)

(** C8: the value 0 is returned: a draw of 32 zero bytes is below the
    order, so the loop keeps it, and key generation then fails on the
    point at infinity. *)
Theorem generateRandomPrivateKey_returns_zero :
  exists privateKey,
    _generateRandomPrivateKey (drawOf 0) = Some (Ok privateKey, [])
    /\ BN.ofHex privateKey = 0
    /\ generateKeyShares 1 1 (drawOf 0)
       = Some (Raise (TypeError "Cannot read properties of null (reading 'fromRed')"), []).
Proof.
  eexists. split; [vm_compute; reflexivity | ].
  split; vm_compute; reflexivity.
Qed.

(** ** Commitments *)

(** C10: [generateCommitment] does not look at its argument: on one tape
    it does the same for any two private shares; and what it returns is
    the nonce drawn and that nonce times the base point. *)
Theorem generateCommitment_ignores_share :
  forall (privateShare privateShare' : Share.t) (tape : list byte),
    generateCommitment privateShare tape = generateCommitment privateShare' tape
    /\ forall (c : Commitment.t) (tape' : list byte),
        generateCommitment privateShare tape = Some (Ok c, tape') ->
        pointToHex (ec.g_mul (BN.ofHex (Commitment.nonce c))) = Ok (Commitment.commitment c)
        /\ exists drawn,
            _generateRandomPrivateKey tape = Some (Ok drawn, tape')
            /\ BN.ofHex (Commitment.nonce c) = BN.ofHex drawn.
Proof.
  intros privateShare privateShare' tape. split; [reflexivity | ].
  intros c tape' Hrun. unfold generateCommitment, bind, liftR, ret in Hrun.
  destruct (_generateRandomPrivateKey tape) as [[[drawn | e] tape1] | ] eqn:Hdraw;
    try discriminate.
  destruct (pointToHex (ec.g_mul (BN.ofHex drawn))) as [hex | e] eqn:Hhex;
    try discriminate.
  inversion Hrun. subst. cbn [Commitment.nonce Commitment.commitment].
  rewrite ofHex_toString16. split; [exact Hhex | ].
  exists drawn. split; reflexivity.
Qed.

Lemma generateCommitment_ignores_share_witness :
  generateCommitment share_1 (drawOf 7) = generateCommitment share_3 (drawOf 7)
  /\ pointToHex (ec.g_mul (BN.ofHex "7")) = Ok (nth 0 commitments_1_3 {| Point.x := ""; Point.y := "" |}).
Proof.
  destruct (generateCommitment_ignores_share share_1 share_3 (drawOf 7)) as [Hsame Hpoint].
  split; [exact Hsame | ].
  destruct (Hpoint {| Commitment.nonce := "7";
                      Commitment.commitment :=
                        nth 0 commitments_1_3 {| Point.x := ""; Point.y := "" |} |} [])
    as [Hcommit _].
  - vm_compute. reflexivity.
  - exact Hcommit.
Defined.

(** ** Verification *)





(* ================================================================== *)
(** * Part III: further properties of the methods and of their callers *)
(* ================================================================== *)

(** ** Strings: lengths and padding *)

Lemma length_append (a b : string) :
  String.length (a ++ b)%string = (String.length a + String.length b)%nat.
Proof. induction a as [ | ch a IH]; cbn; [reflexivity | now rewrite IH]. Qed.

Lemma length_string_of_list_ascii (l : list ascii) :
  String.length (string_of_list_ascii l) = List.length l.
Proof. induction l as [ | ch l IH]; cbn; [reflexivity | now rewrite IH]. Qed.

Lemma length_padStart (targetLength : nat) (fill : ascii) (s : string) :
  String.length (JsString.padStart targetLength fill s)
  = Nat.max targetLength (String.length s).
Proof.
  unfold JsString.padStart.
  rewrite length_append, length_string_of_list_ascii, repeat_length. lia.
Qed.

Lemma length_of_pos :
  forall (p : positive) (k : nat) (rest : string),
    Zpos p < 16 ^ Z.of_nat k ->
    (String.length (HexString.Raw.of_pos p rest) <= k + String.length rest)%nat.
Proof.
  assert (Hstep : forall (k : nat) (q : positive),
             16 * Zpos q < 16 ^ Z.of_nat k ->
             exists k', k = S k' /\ Zpos q < 16 ^ Z.of_nat k').
  { intros k q Hlt. destruct k as [ | k'].
    - change (16 ^ Z.of_nat 0) with 1 in Hlt. lia.
    - exists k'. split; [reflexivity | ].
      rewrite Nat2Z.inj_succ, Z.pow_succ_r in Hlt by lia. lia. }
  assert (Hone : forall (k : nat) (d : Z), 1 <= d -> d < 16 ^ Z.of_nat k -> (1 <= k)%nat).
  { intros k d Hd Hlt. destruct k; [change (16 ^ Z.of_nat 0) with 1 in Hlt; lia | lia]. }
  fix IH 1.
  intros p k rest Hlt.
  do 4 (try destruct p as [p | p | ]);
    cbn [HexString.Raw.of_pos];
    try (cbn [String.length]; apply (Hone k) in Hlt; lia);
    (destruct (Hstep k p) as [k' [-> Hk']]; [lia | ]);
    match goal with
    | |- (String.length (HexString.Raw.of_pos p (String ?ch rest)) <= _)%nat =>
        specialize (IH p k' (String ch rest) Hk'); cbn [String.length] in IH; lia
    end.
Qed.

Lemma length_toString16 (a : Z) (k : nat) :
  0 <= a < 16 ^ Z.of_nat k -> (1 <= k)%nat ->
  (String.length (BN.toString16 a) <= k)%nat.
Proof.
  intros [Hlo Hhi] Hk. destruct a as [ | p | p]; cbn [BN.toString16].
  - cbn. lia.
  - pose proof (length_of_pos p k "" Hhi) as H. cbn [String.length] in H. lia.
  - lia.
Qed.

Lemma length_toString_hex (buf : list Z) :
  String.length (Buffer.toString_hex buf) = (2 * List.length buf)%nat.
Proof.
  induction buf as [ | b buf IH]; cbn [Buffer.toString_hex String.length List.length];
    [reflexivity | lia].
Qed.

(** A scalar below the order fills 64 hexadecimal digits when padded. *)
Lemma length_padded_scalar (a : Z) :
  0 <= a < ec.n ->
  String.length (JsString.padStart 64 "0" (BN.toString16 a)) = 64%nat.
Proof.
  intros Ha. rewrite length_padStart.
  assert (H : (String.length (BN.toString16 a) <= 64)%nat).
  { apply length_toString16; [ | lia].
    assert (ec.n < 16 ^ Z.of_nat 64) by (vm_compute; reflexivity). lia. }
  lia.
Qed.

Lemma parseHex_zeros (k : nat) (s : string) :
  BN.parseHex (string_of_list_ascii (repeat "0"%char k) ++ s) 0 = BN.parseHex s 0.
Proof.
  induction k as [ | k IH]; [reflexivity | ].
  cbn [repeat string_of_list_ascii String.append BN.parseHex].
  change (16 * 0 + BN.parseHex4Bits "0") with 0. exact IH.
Qed.

(** Padding with zeros does not change what a number without sign reads as. *)
Lemma ofHex_padStart_toString16 (k : nat) (a : Z) :
  0 <= a -> BN.ofHex (JsString.padStart k "0" (BN.toString16 a)) = a.
Proof.
  intros Ha.
  assert (Hplain : BN.ofHex (BN.toString16 a) = BN.parseHex (BN.toString16 a) 0).
  { destruct a as [ | p | p]; [reflexivity | apply ofHex_of_pos | lia]. }
  unfold JsString.padStart.
  destruct (k - String.length (BN.toString16 a))%nat as [ | m].
  - apply ofHex_toString16.
  - change (repeat "0"%char (S m)) with ("0"%char :: repeat "0"%char m).
    cbn [string_of_list_ascii String.append].
    rewrite ofHex_unsigned by discriminate.
    change (String "0" (string_of_list_ascii (repeat "0"%char m) ++ BN.toString16 a))
      with (string_of_list_ascii (repeat "0"%char (S m)) ++ BN.toString16 a)%string.
    rewrite parseHex_zeros, <- Hplain. apply ofHex_toString16.
Qed.

Lemma parseHex4Bits_hexDigit (d : Z) :
  0 <= d < 16 -> BN.parseHex4Bits (Buffer.hexDigit d) = d.
Proof.
  intros Hd.
  assert (Hcases : d = 0 \/ d = 1 \/ d = 2 \/ d = 3 \/ d = 4 \/ d = 5 \/ d = 6 \/ d = 7
                   \/ d = 8 \/ d = 9 \/ d = 10 \/ d = 11 \/ d = 12 \/ d = 13 \/ d = 14
                   \/ d = 15) by lia.
  repeat (destruct Hcases as [-> | Hcases]; [reflexivity | ]). subst d. reflexivity.
Qed.

(** A buffer of [k] bytes reads as a number below [256^k]. *)
Lemma parseHex_toString_hex_bound (buf : list Z) :
  Forall (fun b => 0 <= b < 256) buf ->
  forall acc, 0 <= acc ->
    BN.parseHex (Buffer.toString_hex buf) acc
    < (acc + 1) * 256 ^ Z.of_nat (List.length buf).
Proof.
  induction 1 as [ | b buf Hb _ IH]; intros acc Hacc.
  - cbn. lia.
  - cbn [Buffer.toString_hex BN.parseHex List.length].
    rewrite (parseHex4Bits_hexDigit (b / 16))
      by (split; [apply Z.div_pos | apply Z.div_lt_upper_bound]; lia).
    rewrite (parseHex4Bits_hexDigit (b mod 16)) by (apply Z.mod_pos_bound; lia).
    replace (16 * (16 * acc + b / 16) + b mod 16) with (256 * acc + b)
      by (pose proof (Z.div_mod b 16); lia).
    specialize (IH (256 * acc + b) ltac:(lia)).
    rewrite Nat2Z.inj_succ, Z.pow_succ_r by lia.
    assert (Hpow : 0 < 256 ^ Z.of_nat (List.length buf)) by (apply Z.pow_pos_nonneg; lia).
    set (P := 256 ^ Z.of_nat (List.length buf)) in *.
    assert (Hstep : (256 * acc + b + 1) * P <= (acc + 1) * (256 * P)) by nia.
    lia.
Qed.

Lemma digest_length (msg : list Z) : List.length (SHA256.digest msg) = 32%nat.
Proof.
  unfold SHA256.digest.
  destruct (SHA256.blocks _ _ _) as [[[[[[[a b] c] d] e] f] g] h].
  reflexivity.
Qed.

(** ** The rejection loop of [_generateRandomPrivateKey] *)

Lemma generateRandomPrivateKey_first_fit_aux (fuel : nat) :
  forall tape o tape',
    _generateRandomPrivateKey_loop fuel tape = Some (o, tape') ->
    exists m,
      o = Ok (candidate tape m)
      /\ tape' = skipn (32 * S m) tape
      /\ (32 * S m <= List.length tape)%nat
      /\ BN.ofHex (candidate tape m) < ec.n
      /\ forall j, (j < m)%nat -> ec.n <= BN.ofHex (candidate tape j).
Proof.
  induction fuel as [ | fuel IH]; intros tape o tape' Hrun; [discriminate | ].
  cbn [_generateRandomPrivateKey_loop] in Hrun. unfold bind in Hrun.
  destruct (randomBytes 32 tape) as [[r tape1] | ] eqn:Hbytes; [ | discriminate].
  apply randomBytes_inv in Hbytes. destruct Hbytes as [-> [-> Hlen]].
  unfold BN.gte in Hrun.
  destruct (ec.n <=? _) eqn:Hcmp.
  - apply IH in Hrun. destruct Hrun as [m [-> [-> [Hlen' [Hlt Hrej]]]]].
    exists (S m).
    assert (Hblock : forall j, candidate (skipn 32 tape) j = candidate tape (S j)).
    { intros j. unfold candidate. rewrite skipn_skipn. do 4 f_equal. lia. }
    rewrite length_skipn in Hlen'.
    split; [now rewrite Hblock | ].
    split; [rewrite skipn_skipn; f_equal; lia | ].
    split; [lia | ].
    split; [now rewrite <- Hblock | ].
    intros [ | j] Hj.
    + unfold candidate. cbn [Nat.mul skipn]. apply Z.leb_le. exact Hcmp.
    + rewrite <- Hblock. apply Hrej. lia.
  - unfold ret in Hrun. inversion Hrun. subst. exists 0%nat.
    unfold candidate. cbn [Nat.mul skipn].
    split; [reflexivity | ]. split; [reflexivity | ]. split; [lia | ].
    split; [apply Z.leb_gt; exact Hcmp | intros j Hj; lia].
Qed.

(** X1: a call of [_generateRandomPrivateKey] that ends never throws: it
    returns the first block of 32 bytes of the random source that reads
    below the order, having skipped every earlier block, each of which
    reads as the order or more; the string returned has 64 digits, and the
    source is left right after that block. *)
Theorem generateRandomPrivateKey_first_candidate_below_order :
  forall (tape : list byte) (o : result string) (tape' : list byte),
    _generateRandomPrivateKey tape = Some (o, tape') ->
    exists m,
      o = Ok (candidate tape m)
      /\ tape' = skipn (32 * S m) tape
      /\ String.length (candidate tape m) = 64%nat
      /\ 0 <= BN.ofHex (candidate tape m) < ec.n
      /\ forall j, (j < m)%nat -> ec.n <= BN.ofHex (candidate tape j).
Proof.
  intros tape o tape' Hrun.
  destruct (generateRandomPrivateKey_first_fit_aux _ _ _ _ Hrun)
    as (m & Ho & Htape & Hlen & Hlt & Hrej).
  exists m. repeat (split; [assumption | ]).
  split; [ | split; [split; [ | exact Hlt] | exact Hrej]].
  - unfold candidate. rewrite length_toString_hex.
    unfold Buffer.ofBytes. rewrite length_map, length_firstn, length_skipn. lia.
  - apply ofHex_toString_hex_nonneg.
Qed.

Lemma generateRandomPrivateKey_first_candidate_below_order_witness :
  exists m,
    Ok "0000000000000000000000000000000000000000000000000000000000000005"
    = Ok (candidate (drawOf ec.n ++ drawOf 5) m)
    /\ [] = skipn (32 * S m) (drawOf ec.n ++ drawOf 5)
    /\ String.length (candidate (drawOf ec.n ++ drawOf 5) m) = 64%nat
    /\ 0 <= BN.ofHex (candidate (drawOf ec.n ++ drawOf 5) m) < ec.n
    /\ forall j, (j < m)%nat -> ec.n <= BN.ofHex (candidate (drawOf ec.n ++ drawOf 5) j).
Proof.
  apply (generateRandomPrivateKey_first_candidate_below_order (drawOf ec.n ++ drawOf 5)).
  vm_compute. reflexivity.
Defined.

(** ** Digests *)

(** X2: the message hash and the binding factor are strings of 64
    hexadecimal digits that read as numbers below [2^256]; the binding
    factor is not reduced modulo the order. *)
Theorem sha256_hex_format :
  forall (message messageHash : string) (commitments : list Point.t),
    String.length (_hashMessage message) = 64%nat
    /\ String.length (_calculateBindingFactor messageHash commitments) = 64%nat
    /\ 0 <= BN.ofHex (_hashMessage message) < 2 ^ 256
    /\ 0 <= BN.ofHex (_calculateBindingFactor messageHash commitments) < 2 ^ 256.
Proof.
  assert (Hformat : forall s, String.length (sha256_hex s) = 64%nat
                              /\ 0 <= BN.ofHex (sha256_hex s) < 2 ^ 256).
  { intros s. split; [ | split; [apply ofHex_sha256_hex_nonneg | ]].
    - unfold sha256_hex. rewrite length_toString_hex, digest_length. reflexivity.
    - unfold sha256_hex.
      pose proof (digest_bytes (SHA256.bytes_of_string s)) as Hbytes.
      pose proof (digest_length (SHA256.bytes_of_string s)) as Hlen.
      pose proof (parseHex_toString_hex_bound _ Hbytes 0 (Z.le_refl 0)) as Hbound.
      rewrite Hlen in Hbound.
      destruct (SHA256.digest (SHA256.bytes_of_string s)) as [ | b buf];
        [discriminate | ].
      inversion Hbytes as [ | ? ? Hb _]; subst.
      cbn [Buffer.toString_hex] in *.
      rewrite ofHex_unsigned.
      + exact Hbound.
      + apply hexDigit_unsigned.
        split; [apply Z.div_pos; lia | apply Z.div_lt_upper_bound; lia]. }
  intros message messageHash commitments.
  unfold _hashMessage, _calculateBindingFactor.
  destruct (Hformat message) as [Hlen Hrange].
  destruct (Hformat (messageHash
                     ++ fold_left (fun acc commitment =>
                                     (acc ++ (Point.x commitment ++ Point.y commitment)))
                                  commitments "")%string) as [Hlen' Hrange'].
  repeat split; try assumption; lia.
Qed.

(** X3: [_calculateBindingFactor] sees the commitments only through the
    concatenation of their coordinates: two lists of commitments whose
    coordinates concatenate to the same string give the same factor,
    whatever the number of commitments or the boundaries between the
    coordinates. *)
Theorem calculateBindingFactor_concatenation :
  forall (messageHash : string) (commitments commitments' : list Point.t),
    String.concat "" (map (fun commitment => (Point.x commitment ++ Point.y commitment)%string)
                          commitments)
    = String.concat "" (map (fun commitment => (Point.x commitment ++ Point.y commitment)%string)
                            commitments') ->
    _calculateBindingFactor messageHash commitments
    = _calculateBindingFactor messageHash commitments'.
Proof.
  intros messageHash commitments commitments' Hsame.
  unfold _calculateBindingFactor. rewrite !commitmentString_concat, Hsame. reflexivity.
Qed.

Lemma calculateBindingFactor_concatenation_witness :
  _calculateBindingFactor "00" [ {| Point.x := "ab"; Point.y := "cd" |};
                                 {| Point.x := "ef"; Point.y := "01" |} ]
  = _calculateBindingFactor "00" [ {| Point.x := "abc"; Point.y := "def01" |} ].
Proof.
  apply calculateBindingFactor_concatenation. reflexivity.
Defined.

(** ** The Lagrange coefficients *)

(** The coefficient strings read back as the coefficients. *)
Lemma ofHex_nth_lagrangeCoefficients (indices : list Z) (i : nat) :
  (i < List.length indices)%nat ->
  BN.ofHex (nth i (_calculateLagrangeCoefficients indices) "")
  = lagrangeCoefficient indices i.
Proof.
  intros Hi. rewrite nth_lagrangeCoefficients by exact Hi. apply ofHex_toString16.
Qed.

(** X4: for distinct indices between 1 and 50, the coefficients of
    [_calculateLagrangeCoefficients] interpolate at 0: for every
    polynomial with no more coefficients than there are indices, the sum
    of its values at the indices, each weighted by its coefficient, is its
    value at 0 modulo the order. *)
Theorem lagrangeCoefficients_interpolate :
  forall (indices ps : list Z),
    NoDup indices ->
    (forall x, In x indices -> 1 <= x <= 50) ->
    (List.length ps <= List.length indices)%nat ->
    Poly.sum (fun i => Poly.eval ps (nth i indices 0)
                       * BN.ofHex (nth i (_calculateLagrangeCoefficients indices) ""))
             (seq 0 (List.length indices)) mod ec.n
    = Poly.eval ps 0 mod ec.n.
Proof.
  intros indices ps Hnodup Hrange Hlen.
  change (eqm ec.n
            (Poly.sum (fun i => Poly.eval ps (nth i indices 0)
                                * BN.ofHex (nth i (_calculateLagrangeCoefficients indices) ""))
                      (seq 0 (List.length indices)))
            (Poly.eval ps 0)).
  rewrite <- (interpolation_at_zero ec.n order_positive indices ps
                (fun i => Poly.eval ps (nth i indices 0)) Hnodup
                (participants_unitDifferences indices Hrange) Hlen)
    by (intros; reflexivity).
  apply sum_eqm. intros i Hi. apply in_seq in Hi.
  rewrite ofHex_nth_lagrangeCoefficients by lia.
  rewrite lagrangeCoefficient_basis. reflexivity.
Qed.

Lemma lagrangeCoefficients_interpolate_witness :
  Poly.sum (fun i => Poly.eval [5; 3; 2] (nth i [1; 2; 4] 0)
                     * BN.ofHex (nth i (_calculateLagrangeCoefficients [1; 2; 4]) ""))
           (seq 0 (List.length [1; 2; 4])) mod ec.n
  = Poly.eval [5; 3; 2] 0 mod ec.n.
Proof.
  apply (lagrangeCoefficients_interpolate [1; 2; 4] [5; 3; 2]).
  - repeat constructor; cbn; lia.
  - intros x Hx. cbn in Hx. lia.
  - cbn. lia.
Defined.

(** Once the product is 0 it stays 0. *)
Lemma lagrange_fold_zero (indices : list Z) (i : nat) (js : list nat) :
  fold_left
    (fun coeff j =>
       if (i =? j)%nat then coeff
       else
         let xj := nth j indices 0 in
         let num := BN.mod_ (0 - xj) ec.n in
         let denom := BN.mod_ (nth i indices 0 - xj) ec.n in
         let denomInv := BN.invm denom ec.n in
         BN.mod_ (coeff * num * denomInv) ec.n)
    js 0 = 0.
Proof.
  induction js as [ | j js IH]; cbn [fold_left]; [reflexivity | ].
  destruct (i =? j)%nat; [exact IH | ].
  cbv zeta. rewrite !Z.mul_0_l. unfold BN.mod_ at 1. rewrite Z.rem_0_l; [exact IH | ].
  pose proof order_positive. lia.
Qed.

(** X5: among indices that [new BN(number)] takes, those below [2^53] in
    absolute value, an index that occurs at two positions gets the
    coefficient "0" at both: the inverse of the difference 0 is 0, and
    nothing is thrown; the shares at these positions then count for
    nothing in the sum. *)
Theorem lagrangeCoefficient_of_repeated_index :
  forall (indices : list Z) (i j : nat),
    (forall x, In x indices -> Z.abs x < 2 ^ 53) ->
    (i < List.length indices)%nat -> (j < List.length indices)%nat -> i <> j ->
    nth i indices 0 = nth j indices 0 ->
    nth i (_calculateLagrangeCoefficients indices) "" = "0"
    /\ nth j (_calculateLagrangeCoefficients indices) "" = "0".
Proof.
  assert (Hone : forall (indices : list Z) (i j : nat),
             (j < List.length indices)%nat -> i <> j ->
             nth i indices 0 = nth j indices 0 ->
             lagrangeCoefficient indices i = 0).
  { intros indices i j Hj Hij Hsame. unfold lagrangeCoefficient.
    assert (Hsplit : seq 0 (List.length indices)
                     = seq 0 j ++ j :: seq (S j) (List.length indices - S j)).
    { replace (List.length indices) with (j + S (List.length indices - S j))%nat at 1 by lia.
      rewrite seq_app. reflexivity. }
    rewrite Hsplit, fold_left_app. cbn [fold_left].
    destruct (Nat.eqb_spec i j) as [Heq | _]; [contradiction | ].
    cbv zeta. rewrite Hsame, Z.sub_diag.
    replace (BN.invm (BN.mod_ 0 ec.n) ec.n) with 0 by (vm_compute; reflexivity).
    rewrite Z.mul_0_r. replace (BN.mod_ 0 ec.n) with 0 by (vm_compute; reflexivity).
    pose proof (lagrange_fold_zero indices i (seq (S j) (List.length indices - S j))) as Hz.
    cbv zeta in Hz. rewrite Hsame in Hz. exact Hz. }
  intros indices i j _ Hi Hj Hij Hsame.
  rewrite !nth_lagrangeCoefficients by assumption.
  rewrite (Hone indices i j), (Hone indices j i) by (auto || congruence).
  split; reflexivity.
Qed.

Lemma lagrangeCoefficient_of_repeated_index_witness :
  nth 0 (_calculateLagrangeCoefficients [2; 5; 2]) "" = "0"
  /\ nth 2 (_calculateLagrangeCoefficients [2; 5; 2]) "" = "0".
Proof.
  apply (lagrangeCoefficient_of_repeated_index [2; 5; 2] 0 2);
    [ | cbn; lia | cbn; lia | discriminate | reflexivity].
  intros x [<- | [<- | [<- | []]]]; vm_compute; reflexivity.
Defined.

(** ** Key generation: what a run that returns has done *)

(** What a run of [generateKeyShares] that returns has done. *)
Lemma generateKeyShares_returned (n t : Z) (tape : list byte) (ks : KeyShareSet.t)
  (tape' : list byte) :
  generateKeyShares n t tape = Some (Ok ks, tape') ->
  1 <= t <= n
  /\ exists cs,
      drawCoefficients (Z.to_nat t) tape = Some (Ok cs, tape')
      /\ List.length cs = Z.to_nat t
      /\ Forall (fun c => 0 <= c < ec.n) cs
      /\ groupSecret t tape = nth 0 cs 0
      /\ KeyShareSet.shares ks = map (shareOf cs (Z.to_nat t)) (participants n)
      /\ Forall2 (isPublicShareOf cs (Z.to_nat t)) (participants n)
                 (KeyShareSet.publicShares ks)
      /\ pointToHex (ec.g_mul (nth 0 cs 0)) = Ok (KeyShareSet.groupPublicKey ks).
Proof.
  intros Hrun.
  assert (Hvalid : 1 <= t <= n).
  { destruct (Z_lt_le_dec n t) as [Hgt | Hle].
    - assert (Hthrows : throwsError (generateKeyShares n t tape))
        by (apply generateKeyShares_throwsError; lia).
      destruct Hthrows as (message & tape1 & Hthrows). congruence.
    - destruct (Z_lt_le_dec t 1) as [Hlt | Hge]; [ | lia].
      assert (Hthrows : throwsError (generateKeyShares n t tape))
        by (apply generateKeyShares_throwsError; lia).
      destruct Hthrows as (message & tape1 & Hthrows). congruence. }
  split; [exact Hvalid | ].
  apply generateKeyShares_spec in Hrun; [ | exact Hvalid].
  destruct Hrun as (cs & Hdraw & Hshares & Hpubs & Hgpk & _).
  destruct (drawCoefficients_inv _ _ _ _ Hdraw) as (cs' & Hcs' & Hlen & Hrange).
  injection Hcs' as <-.
  exists cs. repeat (split; [assumption | ]).
  split; [ | repeat split; assumption].
  unfold groupSecret. rewrite Hdraw. reflexivity.
Qed.

(** The value of a share of the polynomial [cs]. *)
Lemma ofHex_shareOf (cs : list Z) (i : Z) :
  BN.ofHex (Share.value (shareOf cs (List.length cs) i)) = Poly.eval cs i mod ec.n.
Proof.
  cbn [shareOf Share.value]. rewrite ofHex_toString16, polynomialSum_eval. reflexivity.
Qed.

Lemma g_mul_nonzero (k : Z) : ec.g_mul k <> None -> k mod ec.n <> 0.
Proof.
  intros Hpoint Hzero. apply Hpoint. unfold ec.g_mul. rewrite Hzero. reflexivity.
Qed.

Lemma pointToHex_nonzero (k : Z) (hex : Point.t) :
  pointToHex (ec.g_mul k) = Ok hex -> k mod ec.n <> 0.
Proof.
  intros Hhex. apply g_mul_nonzero. intros Hnone. rewrite Hnone in Hhex. discriminate.
Qed.

Lemma Forall2_in_left {A B : Type} (R : A -> B -> Prop) (l : list A) (l' : list B) :
  Forall2 R l l' -> forall a, In a l -> exists b, In b l' /\ R a b.
Proof.
  induction 1 as [ | a0 b0 l l' Hab _ IH]; intros a Ha; [contradiction | ].
  destruct Ha as [<- | Ha].
  - exists b0. split; [left; reflexivity | exact Hab].
  - destruct (IH a Ha) as (b & Hb & Hr). exists b. split; [right; exact Hb | exact Hr].
Qed.

(** The only exception of the loop over the participants is that of the
    point at infinity. *)
Lemma shareLoop_raises (cs : list Z) (t : nat) (ids : list Z) (e : exn) :
  shareLoop cs t ids = Raise e ->
  e = TypeError "Cannot read properties of null (reading 'fromRed')".
Proof.
  induction ids as [ | i ids IH]; cbn [shareLoop]; [discriminate | ].
  destruct (ec.g_mul (evaluatePolynomial cs t i)) as [[px py] | ];
    cbn [ec.getX ec.getY bindR].
  - destruct (shareLoop cs t ids) as [[shares pubs] | e']; cbn [bindR].
    + discriminate.
    + intros H. inversion H. subst. apply IH. reflexivity.
  - intros H. inversion H. reflexivity.
Qed.

(** A share or a secret whose multiple of the base point is the point at
    infinity ends key generation with the TypeError of [getX]. *)
Lemma generateKeyShares_throws_at_infinity (n t : Z) (tape : list byte) (a : list Z)
  (tape' : list byte) :
  1 <= t <= n ->
  drawCoefficients (Z.to_nat t) tape = Some (Ok a, tape') ->
  (exists i, 1 <= i <= n /\ ec.g_mul (polynomialSum a (Z.to_nat t) i mod ec.n) = None)
  \/ ec.g_mul (nth 0 a 0) = None ->
  generateKeyShares n t tape
  = Some (Raise (TypeError "Cannot read properties of null (reading 'fromRed')"), tape').
Proof.
  intros Hvalid Hdraw Hinf.
  destruct (drawCoefficients_inv _ _ _ _ Hdraw) as (cs & Hcs & Hlen & Hrange).
  injection Hcs as <-.
  unfold generateKeyShares.
  destruct (Z.gtb_spec t n) as [Hgt | _]; [lia | ].
  destruct (Z.ltb_spec t 1) as [Hlt | _]; [lia | ].
  unfold bind at 1. rewrite Hdraw. unfold bind, liftR, ret.
  destruct (shareLoop a (Z.to_nat t) (participants n)) as [[shares pubs] | e] eqn:Hloop.
  - destruct Hinf as [(i & Hi & Hnone) | Hnone].
    + exfalso. apply shareLoop_spec in Hloop;
        [ | exact Hrange | intros j Hj; apply participants_range in Hj; lia].
      destruct Hloop as [_ Hpubs].
      destruct (Forall2_in_left _ _ _ Hpubs i) as (pub & _ & _ & Hpoint);
        [apply participants_range; exact Hi | ].
      rewrite Hnone in Hpoint. discriminate.
    + rewrite Hnone. reflexivity.
  - apply shareLoop_raises in Hloop. subst e. reflexivity.
Qed.

(** C7: for the valid pair [(2, 2)] and the two draws [n - 1] and [1],
    neither of them zero, the share of the participant 1 is
    [n - 1 + 1 = 0] modulo the order, its public share is the point at
    infinity, and [generateKeyShares] throws a TypeError: it returns no
    share at all. *)
Theorem generateKeyShares_throws_on_a_zero_share :
  drawCoefficients 2 tape_zero_share = Some (Ok [ec.n - 1; 1], [])
  /\ 1 <= ec.n - 1 < ec.n
  /\ polynomialSum [ec.n - 1; 1] 2 1 mod ec.n = 0
  /\ generateKeyShares 2 2 tape_zero_share
     = Some (Raise (TypeError "Cannot read properties of null (reading 'fromRed')"), []).
Proof.
  split; [vm_compute; reflexivity | ].
  split; [vm_compute; split; [discriminate | reflexivity] | ].
  split; vm_compute; reflexivity.
Qed.

(** X6: [generateKeyShares] never returns a zero scalar: in a run that
    returns, the group secret and the value of every share lie between 1
    and the order less 1 (a zero share or secret ends the run with the
    TypeError of the point at infinity instead). *)
Theorem generateKeyShares_returns_no_zero_scalar :
  forall (n t : Z) (tape : list byte) (ks : KeyShareSet.t) (tape' : list byte),
    generateKeyShares n t tape = Some (Ok ks, tape') ->
    1 <= groupSecret t tape < ec.n
    /\ forall sh, In sh (KeyShareSet.shares ks) ->
                  1 <= BN.ofHex (Share.value sh) < ec.n.
Proof.
  intros n t tape ks tape' Hrun. pose proof order_positive as Hn.
  destruct (generateKeyShares_returned _ _ _ _ _ Hrun)
    as (Hvalid & cs & _ & Hlen & Hrange & -> & Hshares & Hpubs & Hgpk).
  split.
  - apply pointToHex_nonzero in Hgpk.
    assert (Hsmall : 0 <= nth 0 cs 0 < ec.n).
    { destruct cs as [ | c cs]; [cbn in Hlen; lia | ].
      inversion Hrange. assumption. }
    rewrite Z.mod_small in Hgpk by exact Hsmall. lia.
  - intros sh Hsh. rewrite Hshares in Hsh. apply in_map_iff in Hsh.
    destruct Hsh as (i & <- & Hi).
    destruct (Forall2_in_left _ _ _ Hpubs i Hi) as (pub & _ & _ & Hpoint).
    apply pointToHex_nonzero in Hpoint. rewrite Z.mod_mod in Hpoint by lia.
    cbn [shareOf Share.value]. rewrite ofHex_toString16.
    pose proof (Z.mod_pos_bound (polynomialSum cs (Z.to_nat t) i) ec.n). lia.
Qed.

Lemma generateKeyShares_returns_no_zero_scalar_witness :
  1 <= groupSecret 2 tape_2_of_3 < ec.n
  /\ forall sh, In sh (KeyShareSet.shares keys_2_of_3) ->
                1 <= BN.ofHex (Share.value sh) < ec.n.
Proof.
  apply (generateKeyShares_returns_no_zero_scalar 3 2 tape_2_of_3 keys_2_of_3 []).
  vm_compute. reflexivity.
Defined.

(** X7: with the threshold 1 the polynomial is constant: every share
    returned is the group secret itself, and every public share is the
    group public key. *)
Theorem generateKeyShares_threshold_one_hands_out_the_secret :
  forall (n : Z) (tape : list byte) (ks : KeyShareSet.t) (tape' : list byte),
    generateKeyShares n 1 tape = Some (Ok ks, tape') ->
    (forall sh, In sh (KeyShareSet.shares ks) ->
                BN.ofHex (Share.value sh) = groupSecret 1 tape)
    /\ (forall pub, In pub (KeyShareSet.publicShares ks) ->
                    {| Point.x := PublicShare.x pub; Point.y := PublicShare.y pub |}
                    = KeyShareSet.groupPublicKey ks).
Proof.
  intros n tape ks tape' Hrun. pose proof order_positive as Hn.
  destruct (generateKeyShares_returned _ _ _ _ _ Hrun)
    as (Hvalid & cs & _ & Hlen & Hrange & -> & Hshares & Hpubs & Hgpk).
  destruct cs as [ | a0 [ | a1 cs]]; try (cbn in Hlen; discriminate || lia).
  cbn [nth] in *.
  assert (Hsmall : 0 <= a0 < ec.n) by (inversion Hrange; assumption).
  assert (Hshare : forall i, polynomialSum [a0] (Z.to_nat 1) i mod ec.n = a0).
  { intros i. change (Z.to_nat 1) with (List.length [a0]).
    rewrite polynomialSum_eval. cbn [Poly.eval].
    rewrite Z.mul_0_r, Z.add_0_r. apply Z.mod_small, Hsmall. }
  split.
  - intros sh Hsh. rewrite Hshares in Hsh. apply in_map_iff in Hsh.
    destruct Hsh as (i & <- & _).
    cbn [shareOf Share.value]. rewrite ofHex_toString16. apply Hshare.
  - intros pub Hpub.
    assert (Hright : forall l l', Forall2 (isPublicShareOf [a0] (Z.to_nat 1)) l l' ->
                       In pub l' -> exists i, isPublicShareOf [a0] (Z.to_nat 1) i pub).
    { induction 1 as [ | i b l l' Hib _ IH]; intros Hin; [contradiction | ].
      destruct Hin as [<- | Hin]; [exists i; exact Hib | exact (IH Hin)]. }
    destruct (Hright _ _ Hpubs Hpub) as (i & _ & Hpoint).
    rewrite Hshare, Hgpk in Hpoint. congruence.
Qed.

Lemma generateKeyShares_threshold_one_hands_out_the_secret_witness :
  exists ks,
    generateKeyShares 2 1 (drawOf 5) = Some (Ok ks, [])
    /\ (forall sh, In sh (KeyShareSet.shares ks) ->
                   BN.ofHex (Share.value sh) = groupSecret 1 (drawOf 5))
    /\ (forall pub, In pub (KeyShareSet.publicShares ks) ->
                    {| Point.x := PublicShare.x pub; Point.y := PublicShare.y pub |}
                    = KeyShareSet.groupPublicKey ks).
Proof.
  eexists. split; [vm_compute; reflexivity | ].
  apply (generateKeyShares_threshold_one_hands_out_the_secret 2 (drawOf 5) _ []).
  vm_compute. reflexivity.
Defined.

(** ** Commitments: the outcomes *)

Lemma generateCommitment_inv (privateShare : Share.t) (tape : list byte)
  (o : result Commitment.t) (tape' : list byte) :
  generateCommitment privateShare tape = Some (o, tape') ->
  (exists c, o = Ok c /\ 1 <= BN.ofHex (Commitment.nonce c) < ec.n)
  \/ o = Raise (TypeError "Cannot read properties of null (reading 'fromRed')").
Proof.
  intros Hrun. pose proof order_positive as Hn.
  unfold generateCommitment, bind, liftR, ret in Hrun.
  destruct (_generateRandomPrivateKey tape) as [[o1 tape1] | ] eqn:Hdraw; [ | discriminate].
  destruct (generateRandomPrivateKey_range _ _ _ Hdraw) as (drawn & -> & Hrange).
  destruct (ec.g_mul (BN.ofHex drawn)) as [[x y] | ] eqn:Hpoint; cbn in Hrun.
  - injection Hrun as <- <-. left. eexists. split; [reflexivity | ].
    cbn [Commitment.nonce]. rewrite ofHex_toString16.
    assert (Hnz : BN.ofHex drawn mod ec.n <> 0)
      by (apply g_mul_nonzero; rewrite Hpoint; discriminate).
    rewrite Z.mod_small in Hnz by exact Hrange. lia.
  - injection Hrun as <- <-. right. reflexivity.
Qed.

(** X8: the outcomes of [generateCommitment].  If it returns, the nonce
    lies between 1 and the order less 1 and is the scalar drawn, written
    without leading zeros; if it throws, it throws the TypeError of the
    point at infinity, the scalar drawn having no multiple of the base
    point; and it runs out of random bytes only if the draw does. *)
Theorem generateCommitment_outcomes :
  forall (privateShare : Share.t) (tape : list byte),
    match generateCommitment privateShare tape with
    | Some (Ok c, tape') =>
        1 <= BN.ofHex (Commitment.nonce c) < ec.n
        /\ exists drawn,
            _generateRandomPrivateKey tape = Some (Ok drawn, tape')
            /\ Commitment.nonce c = BN.toString16 (BN.ofHex drawn)
    | Some (Raise e, tape') =>
        e = TypeError "Cannot read properties of null (reading 'fromRed')"
        /\ exists drawn,
            _generateRandomPrivateKey tape = Some (Ok drawn, tape')
            /\ ec.g_mul (BN.ofHex drawn) = None
    | None => _generateRandomPrivateKey tape = None
    end.
Proof.
  intros privateShare tape. pose proof order_positive as Hn.
  unfold generateCommitment, bind, liftR, ret.
  destruct (_generateRandomPrivateKey tape) as [[o tape1] | ] eqn:Hdraw; [ | reflexivity].
  destruct (generateRandomPrivateKey_range _ _ _ Hdraw) as (drawn & -> & Hrange).
  destruct (ec.g_mul (BN.ofHex drawn)) as [[x y] | ] eqn:Hpoint; cbn.
  - rewrite ofHex_toString16. split; [ | exists drawn; split; reflexivity].
    assert (Hnz : BN.ofHex drawn mod ec.n <> 0)
      by (apply g_mul_nonzero; rewrite Hpoint; discriminate).
    rewrite Z.mod_small in Hnz by exact Hrange. lia.
  - split; [reflexivity | ]. exists drawn. split; [reflexivity | exact Hpoint].
Qed.

(** ** Signature shares: nonces and composition *)

(** The scalar of a signature share, for a share and a nonce without sign. *)
Lemma generateSignatureShare_scalar (message : string) (privateShare : Share.t)
  (nonce : string) (commitments : list Point.t) (participants : list PublicShare.t) :
  0 <= BN.ofHex (Share.value privateShare) ->
  0 <= BN.ofHex nonce ->
  BN.ofHex (Share.value (generateSignatureShare message privateShare nonce
                                                commitments participants))
  = (BN.ofHex nonce
     + BN.ofHex (_calculateBindingFactor (_hashMessage message) commitments)
       * BN.ofHex (Share.value privateShare)) mod ec.n.
Proof.
  intros Hshare Hnonce. pose proof order_positive as Hn.
  unfold generateSignatureShare. cbn [Share.value]. rewrite ofHex_toString16.
  set (c := BN.ofHex (_calculateBindingFactor (_hashMessage message) commitments)).
  assert (Hc : 0 <= c) by apply ofHex_sha256_hex_nonneg.
  unfold BN.mod_.
  rewrite (rem_nonneg (c * _)) by (try apply Z.mul_nonneg_nonneg; lia).
  rewrite rem_nonneg.
  - apply Zplus_mod_idemp_r.
  - pose proof (Z.mod_pos_bound (c * BN.ofHex (Share.value privateShare)) ec.n). lia.
  - lia.
Qed.

(** X9: [generateSignatureShare] lets a nonce be used twice, and two
    signature shares made with one nonce and one private share differ,
    modulo the order, by the private share times the difference of the two
    binding factors. *)
Theorem generateSignatureShare_nonce_reuse :
  forall (message message' : string) (privateShare : Share.t) (nonce : string)
         (commitments commitments' : list Point.t)
         (participants participants' : list PublicShare.t),
    0 <= BN.ofHex (Share.value privateShare) ->
    0 <= BN.ofHex nonce ->
    let z := BN.ofHex (Share.value (generateSignatureShare message privateShare nonce
                                                           commitments participants)) in
    let z' := BN.ofHex (Share.value (generateSignatureShare message' privateShare nonce
                                                            commitments' participants')) in
    let c := BN.ofHex (_calculateBindingFactor (_hashMessage message) commitments) in
    let c' := BN.ofHex (_calculateBindingFactor (_hashMessage message') commitments') in
    (z - z') mod ec.n = ((c - c') * BN.ofHex (Share.value privateShare)) mod ec.n.
Proof.
  intros message message' privateShare nonce commitments commitments' pubs pubs'
         Hshare Hnonce z z' c c'.
  subst z z'. rewrite !generateSignatureShare_scalar by assumption. fold c c'.
  change (eqm ec.n
            ((BN.ofHex nonce + c * BN.ofHex (Share.value privateShare)) mod ec.n
             - (BN.ofHex nonce + c' * BN.ofHex (Share.value privateShare)) mod ec.n)
            ((c - c') * BN.ofHex (Share.value privateShare))).
  rewrite !Zmod_eqm. unfold eqm. f_equal. ring.
Qed.

Lemma generateSignatureShare_nonce_reuse_witness :
  let z := BN.ofHex (Share.value (generateSignatureShare "test" share_1 "7"
                                                         commitments_1_3 [])) in
  let z' := BN.ofHex (Share.value (generateSignatureShare "other" share_1 "7"
                                                          commitments_1_3 [])) in
  let c := BN.ofHex (_calculateBindingFactor (_hashMessage "test") commitments_1_3) in
  let c' := BN.ofHex (_calculateBindingFactor (_hashMessage "other") commitments_1_3) in
  (z - z') mod ec.n = ((c - c') * BN.ofHex (Share.value share_1)) mod ec.n.
Proof.
  apply (generateSignatureShare_nonce_reuse "test" "other" share_1 "7"
           commitments_1_3 commitments_1_3 [] []).
  - vm_compute. discriminate.
  - vm_compute. discriminate.
Defined.

Lemma sum_add (f g : nat -> Z) (js : list nat) :
  Poly.sum (fun j => f j + g j) js = Poly.sum f js + Poly.sum g js.
Proof.
  induction js as [ | j js IH]; cbn [Poly.sum fold_right]; [reflexivity | ].
  unfold Poly.sum in IH. rewrite IH. ring.
Qed.

Lemma map_index_pointwise (sigs sub : list Share.t) :
  List.length sigs = List.length sub ->
  (forall i, (i < List.length sub)%nat ->
             Share.index (nth i sigs noShare) = Share.index (nth i sub noShare)) ->
  map Share.index sigs = map Share.index sub.
Proof.
  intros Hlen Hidx.
  apply (nth_ext _ _ (Share.index noShare) (Share.index noShare)).
  - rewrite !length_map. exact Hlen.
  - intros i Hi. rewrite length_map in Hi. rewrite !map_nth. apply Hidx. lia.
Qed.

(** Signature shares [K i + c * s_i] on shares [s_i] of the polynomial
    [cs] combine to the sum of the nonces weighted by the Lagrange
    coefficients, plus [c] times the constant term. *)
Lemma combineLoop_of_signature_shares (cs : list Z) (sub sigs : list Share.t)
  (K : nat -> Z) (c : Z) :
  NoDup (map Share.index sub) ->
  unitDifferences ec.n (map Share.index sub) ->
  (List.length cs <= List.length sub)%nat ->
  (forall sh, In sh sub ->
              eqm ec.n (BN.ofHex (Share.value sh)) (Poly.eval cs (Share.index sh))) ->
  List.length sigs = List.length sub ->
  (forall i, (i < List.length sub)%nat ->
             Share.index (nth i sigs noShare) = Share.index (nth i sub noShare)
             /\ eqm ec.n (BN.ofHex (Share.value (nth i sigs noShare)))
                    (K i + c * BN.ofHex (Share.value (nth i sub noShare)))) ->
  eqm ec.n
      (combineLoop sigs (_calculateLagrangeCoefficients (map Share.index sigs)))
      (Poly.sum (fun i => K i * BN.ofHex (nth i (_calculateLagrangeCoefficients
                                                   (map Share.index sub)) ""))
                (seq 0 (List.length sub))
       + c * Poly.eval cs 0).
Proof.
  intros Hnd Hunits Hlen Hvalues Hsigs Hpoint.
  rewrite (map_index_pointwise sigs sub Hsigs) by (intros i Hi; apply Hpoint, Hi).
  set (L := _calculateLagrangeCoefficients (map Share.index sub)).
  rewrite combineLoop_sum, Hsigs.
  rewrite <- (combineLoop_interpolates cs sub Hnd Hunits Hlen Hvalues).
  fold L. rewrite (combineLoop_sum sub L).
  rewrite sum_scale, <- sum_add.
  apply sum_eqm. intros i Hi. apply in_seq in Hi.
  destruct (Hpoint i) as [_ Hz]; [lia | ]. rewrite Hz.
  unfold eqm. f_equal. ring.
Qed.

(** X10: signing, then combining.  For a group of at most 50 made by
    [generateKeyShares], and at least [t] of its shares with distinct
    indices, the signature shares that [generateSignatureShare] makes on
    one message and one list of commitments, with nonces without sign,
    combine to the sum of the nonces weighted by the Lagrange coefficients
    plus the binding factor times the group secret, modulo the order. *)
Theorem signature_shares_combine_to_response :
  forall (n t : Z) (tape : list byte) (ks : KeyShareSet.t) (tape' : list byte)
         (message : string) (sub : list Share.t) (nonces : list string)
         (commitments : list Point.t) (participants : list PublicShare.t),
    n <= 50 ->
    generateKeyShares n t tape = Some (Ok ks, tape') ->
    incl sub (KeyShareSet.shares ks) ->
    NoDup (map Share.index sub) ->
    t <= Z.of_nat (List.length sub) ->
    (forall i, 0 <= BN.ofHex (nth i nonces "")) ->
    let signatureShares :=
      map (fun i => generateSignatureShare message (nth i sub noShare) (nth i nonces "")
                                           commitments participants)
          (seq 0 (List.length sub)) in
    let lagrangeCoefficients := _calculateLagrangeCoefficients (map Share.index sub) in
    let c := BN.ofHex (_calculateBindingFactor (_hashMessage message) commitments) in
    BN.umod (combineLoop signatureShares
               (_calculateLagrangeCoefficients (map Share.index signatureShares))) ec.n
    = (Poly.sum (fun i => BN.ofHex (nth i nonces "")
                          * BN.ofHex (nth i lagrangeCoefficients ""))
                (seq 0 (List.length sub))
       + c * groupSecret t tape) mod ec.n.
Proof.
  intros n t tape ks tape' message sub nonces commitments pubs Hn Hrun Hincl Hnd Hsize
         Hnonces signatureShares lagrangeCoefficients c.
  destruct (generateKeyShares_returned _ _ _ _ _ Hrun)
    as (Hvalid & cs & _ & Hlen & Hrange & -> & Hshares & _).
  assert (Hmember : forall sh, In sh sub ->
            exists i, 1 <= i <= n /\ sh = shareOf cs (List.length cs) i).
  { intros sh Hsh. apply Hincl in Hsh. rewrite Hshares in Hsh.
    apply in_map_iff in Hsh. destruct Hsh as (i & <- & Hi).
    exists i. split; [apply participants_range, Hi | now rewrite Hlen]. }
  rewrite <- eval_zero. unfold BN.umod.
  apply (combineLoop_of_signature_shares cs sub signatureShares
           (fun i => BN.ofHex (nth i nonces "")) c).
  - exact Hnd.
  - apply participants_unitDifferences. intros x Hx.
    apply in_map_iff in Hx. destruct Hx as (sh & <- & Hsh).
    destruct (Hmember sh Hsh) as (i & Hi & ->). cbn. lia.
  - lia.
  - intros sh Hsh. destruct (Hmember sh Hsh) as (i & Hi & ->).
    rewrite ofHex_shareOf. apply Zmod_eqm.
  - unfold signatureShares. rewrite length_map, length_seq. reflexivity.
  - intros i Hi. unfold signatureShares.
    rewrite (nth_indep _ noShare
               (generateSignatureShare message (nth 0%nat sub noShare) (nth 0%nat nonces "")
                                       commitments pubs))
      by (rewrite length_map, length_seq; exact Hi).
    rewrite (map_nth (fun i => generateSignatureShare message (nth i sub noShare)
                                 (nth i nonces "") commitments pubs)
                     (seq 0 (List.length sub)) 0%nat i).
    rewrite seq_nth by exact Hi. cbn [Nat.add].
    split; [reflexivity | ].
    rewrite generateSignatureShare_scalar.
    + apply Zmod_eqm.
    + destruct (Hmember (nth i sub noShare)) as (k & Hk & ->); [apply nth_In, Hi | ].
      rewrite ofHex_shareOf. apply Z.mod_pos_bound. pose proof order_positive. lia.
    + apply Hnonces.
Qed.

Lemma signature_shares_combine_to_response_witness :
  let sub := [share_1; share_3] in
  let nonces := ["7"; "9"] in
  let signatureShares :=
    map (fun i => generateSignatureShare "test" (nth i sub noShare) (nth i nonces "")
                                         commitments_1_3 [])
        (seq 0 (List.length sub)) in
  let lagrangeCoefficients := _calculateLagrangeCoefficients (map Share.index sub) in
  let c := BN.ofHex (_calculateBindingFactor (_hashMessage "test") commitments_1_3) in
  BN.umod (combineLoop signatureShares
             (_calculateLagrangeCoefficients (map Share.index signatureShares))) ec.n
  = (Poly.sum (fun i => BN.ofHex (nth i nonces "")
                        * BN.ofHex (nth i lagrangeCoefficients ""))
              (seq 0 (List.length sub))
     + c * groupSecret 2 tape_2_of_3) mod ec.n.
Proof.
  apply (signature_shares_combine_to_response 3 2 tape_2_of_3 keys_2_of_3 [] "test"
           [share_1; share_3] ["7"; "9"] commitments_1_3 []).
  - lia.
  - vm_compute. reflexivity.
  - intros sh [<- | [<- | []]]; vm_compute; auto.
  - repeat constructor; cbn; intuition discriminate.
  - cbn. lia.
  - intros [ | [ | [ | i]]]; vm_compute; discriminate.
Defined.

(** ** Combining: what the result depends on, and its format *)

(** X11: [combineSignatureShares] computes the binding factor and never
    uses it: on one random source its outcome is the same for any two
    messages, lists of commitments and lists of public shares. *)
Theorem combineSignatureShares_ignores_message_and_commitments :
  forall (message message' : string) (signatureShares : list Share.t)
         (commitments commitments' : list Point.t)
         (publicShares publicShares' : list PublicShare.t) (threshold : Z)
         (tape : list byte),
    combineSignatureShares message signatureShares commitments publicShares threshold tape
    = combineSignatureShares message' signatureShares commitments' publicShares' threshold
                             tape.
Proof. reflexivity. Qed.

(** The sign of the combined scalar, for shares with no negative index
    and no negative value. *)
Lemma combineLoop_sign_of_shares (signatureShares : list Share.t) :
  (forall sh, In sh signatureShares ->
              0 <= Share.index sh /\ 0 <= BN.ofHex (Share.value sh)) ->
  let combinedSignature :=
    combineLoop signatureShares
                (_calculateLagrangeCoefficients (map Share.index signatureShares)) in
  0 <= sign (List.length signatureShares) * combinedSignature
  /\ - ec.n < combinedSignature < ec.n.
Proof.
  intros Hshares combinedSignature.
  apply combineLoop_sign; [apply sign_cases | ].
  intros i Hi.
  rewrite ofHex_nth_lagrangeCoefficients by (rewrite length_map; exact Hi).
  assert (Hvalue : 0 <= BN.ofHex (Share.value (nth i signatureShares noShare)))
    by (apply Hshares, nth_In, Hi).
  assert (Hcoeff : 0 <= sign (List.length (map Share.index signatureShares))
                        * lagrangeCoefficient (map Share.index signatureShares) i).
  { apply lagrangeCoefficient_sign; [ | rewrite length_map; exact Hi].
    intros x Hx. apply in_map_iff in Hx. destruct Hx as (sh & <- & Hsh).
    apply Hshares, Hsh. }
  rewrite length_map in Hcoeff. nia.
Qed.

(** ** Reconstruction: the scalar and the number of shares *)

(** The scalar that the combining loop gives on a selection of the shares
    of a group: the group secret for an odd number of shares, and the group
    secret less the order for an even number; its residue is the group
    secret, whose multiple of the base point is the group public key. *)
Lemma combineLoop_reconstructs_secret (n t : Z) (tape : list byte) (ks : KeyShareSet.t)
  (tape' : list byte) (sub : list Share.t) :
  n <= 50 ->
  generateKeyShares n t tape = Some (Ok ks, tape') ->
  incl sub (KeyShareSet.shares ks) ->
  NoDup (map Share.index sub) ->
  t <= Z.of_nat (List.length sub) ->
  let scalar := combineLoop sub (_calculateLagrangeCoefficients (map Share.index sub)) in
  scalar = (if Nat.odd (List.length sub) then groupSecret t tape
            else groupSecret t tape - ec.n)
  /\ BN.umod scalar ec.n = groupSecret t tape
  /\ pointToHex (ec.g_mul (BN.umod scalar ec.n)) = Ok (KeyShareSet.groupPublicKey ks).
Proof.
  intros Hn Hrun Hincl Hnd Hsize scalar. pose proof order_positive as Horder.
  destruct (generateKeyShares_returned _ _ _ _ _ Hrun)
    as (Hvalid & cs & _ & Hlen & Hrange & Hsecret & Hshares & _ & Hgpk).
  assert (Hmember : forall sh, In sh sub ->
            exists i, 1 <= i <= n /\ sh = shareOf cs (List.length cs) i).
  { intros sh Hsh. apply Hincl in Hsh. rewrite Hshares in Hsh.
    apply in_map_iff in Hsh. destruct Hsh as (i & <- & Hi).
    exists i. split; [apply participants_range, Hi | now rewrite Hlen]. }
  assert (Hscalar : eqm ec.n scalar (Poly.eval cs 0)).
  { apply combineLoop_interpolates.
    - exact Hnd.
    - apply participants_unitDifferences. intros x Hx.
      apply in_map_iff in Hx. destruct Hx as (sh & <- & Hsh).
      destruct (Hmember sh Hsh) as (i & Hi & ->). cbn. lia.
    - lia.
    - intros sh Hsh. destruct (Hmember sh Hsh) as (i & Hi & ->).
      rewrite ofHex_shareOf. apply Zmod_eqm. }
  rewrite eval_zero, <- Hsecret in Hscalar.
  assert (Hsmall : 1 <= groupSecret t tape < ec.n).
  { rewrite Hsecret. pose proof (pointToHex_nonzero _ _ Hgpk) as Hnz.
    assert (Hin : 0 <= nth 0 cs 0 < ec.n).
    { destruct cs as [ | c cs]; [cbn in Hlen; lia | ].
      inversion Hrange. assumption. }
    rewrite Z.mod_small in Hnz by exact Hin. lia. }
  assert (Hsign : 0 <= sign (List.length sub) * scalar /\ - ec.n < scalar < ec.n).
  { apply combineLoop_sign_of_shares. intros sh Hsh.
    destruct (Hmember sh Hsh) as (i & Hi & ->).
    rewrite ofHex_shareOf. cbn [shareOf Share.index].
    split; [lia | apply Z.mod_pos_bound; lia]. }
  destruct Hsign as [Hsign Hbound]. unfold sign in Hsign.
  assert (Hresidue : scalar mod ec.n = groupSecret t tape).
  { rewrite Hscalar. apply Z.mod_small. lia. }
  split; [ | split].
  - destruct (Nat.odd (List.length sub)).
    + rewrite <- Hresidue. symmetry. apply Z.mod_small. lia.
    + assert (Hshift : (scalar + 1 * ec.n) mod ec.n = groupSecret t tape)
        by (rewrite Z.mod_add by lia; exact Hresidue).
      destruct (Z.eq_dec scalar 0) as [Hzero | Hnonzero].
      * subst scalar. rewrite Hzero in Hresidue. rewrite Z.mod_0_l in Hresidue by lia. lia.
      * rewrite Z.mod_small in Hshift by lia. lia.
  - exact Hresidue.
  - unfold BN.umod. rewrite Hresidue, Hsecret. exact Hgpk.
Qed.

(** C1: the combined scalar is not the same for every selection.  In the
    group of 3 with the threshold 2 and the secret 5, the three shares
    give the scalar 5, and the shares of the participants 1 and 3 give
    [5 - n], a negative number, which [combineSignatureShares] writes into
    [r] with its sign, in 65 characters. *)
Theorem combined_scalar_changes_with_the_number_of_shares :
  let scalar (sub : list Share.t) :=
    combineLoop sub (_calculateLagrangeCoefficients (map Share.index sub)) in
  generateKeyShares 3 2 tape_2_of_3 = Some (Ok keys_2_of_3, [])
  /\ KeyShareSet.shares keys_2_of_3 = [share_1; share_2; share_3]
  /\ groupSecret 2 tape_2_of_3 = 5
  /\ scalar [share_1; share_2; share_3] = 5
  /\ scalar [share_1; share_3] = 5 - ec.n
  /\ BN.toString16 (scalar [share_1; share_3])
     = "-fffffffffffffffffffffffffffffffebaaedce6af48a03bbfd25e8cd036413c"
  /\ exists signature,
      combineSignatureShares "test" [share_1; share_3] [] [] 2 (drawOf 7)
      = Some (Ok signature, [])
      /\ Signature.r signature
         = "-fffffffffffffffffffffffffffffffebaaedce6af48a03bbfd25e8cd036413c"
      /\ String.length (Signature.r signature) = 65%nat.
Proof.
  cbv zeta.
  repeat (split; [vm_compute; reflexivity | ]).
  eexists. split; [vm_compute; reflexivity | ]. split; reflexivity.
Qed.

(** X12: the format of a signature returned by [combineSignatureShares]
    on shares with no negative index and no negative value.  [s] always
    has 64 digits and reads as a scalar below the order.  For an odd number
    of shares so does [r], which reads as the combined scalar.  For an even
    number of shares the combined scalar is never positive, as [mod] keeps
    the sign of the Lagrange coefficients; when it is negative [r] is the
    padding of a string that begins with the sign. *)
Theorem combineSignatureShares_format :
  forall (message : string) (signatureShares : list Share.t)
         (commitments : list Point.t) (publicShares : list PublicShare.t)
         (threshold : Z) (tape : list byte) (signature : Signature.t)
         (tape' : list byte),
    combineSignatureShares message signatureShares commitments publicShares threshold tape
    = Some (Ok signature, tape') ->
    (forall sh, In sh signatureShares ->
                0 <= Share.index sh /\ 0 <= BN.ofHex (Share.value sh)) ->
    (String.length (Signature.s signature) = 64%nat
     /\ 0 <= BN.ofHex (Signature.s signature) < ec.n)
    /\ (Nat.odd (List.length signatureShares) = true ->
        String.length (Signature.r signature) = 64%nat
        /\ 0 <= BN.ofHex (Signature.r signature) < ec.n
        /\ BN.ofHex (Signature.r signature) = BN.ofHex (Signature.combined signature))
    /\ (Nat.odd (List.length signatureShares) = false ->
        BN.ofHex (Signature.combined signature) <= 0
        /\ (BN.ofHex (Signature.combined signature) < 0 ->
            exists digits,
              Signature.r signature = JsString.padStart 64 "0" (String "-" digits))).
Proof.
  intros message signatureShares commitments publicShares threshold tape signature tape'
         Hrun Hshares.
  pose proof order_positive as Hn.
  apply combineSignatureShares_returns in Hrun.
  destruct Hrun as (_ & drawn & Hdraw & ->). cbv zeta.
  cbn [Signature.r Signature.s Signature.combined].
  set (combinedSignature :=
         combineLoop signatureShares
           (_calculateLagrangeCoefficients (map Share.index signatureShares))).
  destruct (generateRandomPrivateKey_range _ _ _ Hdraw) as (k & Hk & Hrange).
  injection Hk as <-.
  pose proof (combineLoop_sign_of_shares signatureShares Hshares) as Hsign.
  cbv zeta in Hsign. fold combinedSignature in Hsign.
  destruct Hsign as [Hsign Hbound]. unfold sign in Hsign.
  split; [ | split].
  - rewrite ofHex_padStart_toString16 by lia.
    split; [apply length_padded_scalar; exact Hrange | exact Hrange].
  - intros Hodd. rewrite Hodd in Hsign.
    rewrite ofHex_padStart_toString16, ofHex_toString16 by lia.
    split; [apply length_padded_scalar; lia | ]. split; [lia | reflexivity].
  - intros Heven. rewrite Heven in Hsign. rewrite ofHex_toString16.
    split; [lia | ]. intros Hneg.
    destruct combinedSignature as [ | p | p]; try lia.
    exists (HexString.Raw.of_pos p ""). reflexivity.
Qed.

Lemma combineSignatureShares_format_witness :
  exists signature,
    combineSignatureShares "test" [signatureShare_1; signatureShare_3] commitments_1_3
                           [] 2 (drawOf 7)
    = Some (Ok signature, [])
    /\ (String.length (Signature.s signature) = 64%nat
        /\ 0 <= BN.ofHex (Signature.s signature) < ec.n)
    /\ (Nat.odd 2 = true ->
        String.length (Signature.r signature) = 64%nat
        /\ 0 <= BN.ofHex (Signature.r signature) < ec.n
        /\ BN.ofHex (Signature.r signature) = BN.ofHex (Signature.combined signature))
    /\ (Nat.odd 2 = false ->
        BN.ofHex (Signature.combined signature) <= 0
        /\ (BN.ofHex (Signature.combined signature) < 0 ->
            exists digits,
              Signature.r signature = JsString.padStart 64 "0" (String "-" digits))).
Proof.
  eexists. split; [vm_compute; reflexivity | ].
  apply (combineSignatureShares_format "test" [signatureShare_1; signatureShare_3]
           commitments_1_3 [] 2 (drawOf 7) _ []).
  - vm_compute. reflexivity.
  - intros sh [<- | [<- | []]]; vm_compute; split; discriminate.
Defined.

(** ** The signing helpers of the Byzantine tester *)

Lemma commitmentLoop_inv (shares : list Share.t) (count : nat) :
  forall i tape o tape',
    commitmentLoop shares i count tape = Some (o, tape') ->
    (exists commitments,
        o = Ok commitments /\ List.length commitments = count
        /\ Forall (fun c => 1 <= BN.ofHex (Commitment.nonce c) < ec.n) commitments)
    \/ o = Raise (TypeError "Cannot read properties of null (reading 'fromRed')").
Proof.
  induction count as [ | count IH]; intros i tape o tape' Hrun.
  - cbn in Hrun. injection Hrun as <- <-. left. exists []. repeat split. constructor.
  - cbn [commitmentLoop] in Hrun. unfold bind at 1 in Hrun.
    destruct (generateCommitment (nth i shares noShare) tape) as [[o1 tape1] | ] eqn:Hone;
      [ | discriminate].
    destruct (generateCommitment_inv _ _ _ _ Hone) as [(c & -> & Hc) | ->].
    + unfold bind at 1 in Hrun.
      destruct (commitmentLoop shares (S i) count tape1) as [[o2 tape2] | ] eqn:Hrest;
        [ | discriminate].
      destruct (IH _ _ _ _ Hrest) as [(cms & -> & Hlen & Hall) | ->].
      * injection Hrun as <- <-. left. exists (c :: cms).
        split; [reflexivity | ]. split; [cbn; lia | constructor; assumption].
      * injection Hrun as <- <-. right. reflexivity.
    + injection Hrun as <- <-. right. reflexivity.
Qed.

Lemma signatureShareLoop_returns (message : string) (keyShares : KeyShareSet.t)
  (commitments : list Commitment.t) (count : nat) :
  forall i,
    (i + count <= List.length commitments)%nat ->
    (i + count <= List.length (KeyShareSet.shares keyShares))%nat ->
    exists signatureShares,
      signatureShareLoop message keyShares commitments i count = Ok signatureShares
      /\ List.length signatureShares = count
      /\ forall j, (j < count)%nat ->
           nth j signatureShares noShare
           = generateSignatureShare message
               (nth (i + j) (KeyShareSet.shares keyShares) noShare)
               (nth (i + j) (map Commitment.nonce commitments) "")
               (map Commitment.commitment commitments)
               (KeyShareSet.publicShares keyShares).
Proof.
  set (none := {| Commitment.nonce := "";
                  Commitment.commitment := {| Point.x := ""; Point.y := "" |} |}).
  induction count as [ | count IH]; intros i Hcms Hshares.
  - exists []. repeat split. intros j Hj. lia.
  - cbn [signatureShareLoop].
    rewrite (nth_error_nth' commitments none) by lia.
    rewrite (nth_error_nth' (KeyShareSet.shares keyShares) noShare) by lia.
    cbn [property bindR].
    destruct (IH (S i)) as (rest & -> & Hlen & Hrest); [lia | lia | ].
    cbn [bindR]. eexists. split; [reflexivity | ]. split; [cbn; lia | ].
    intros [ | j] Hj.
    + cbn [nth]. rewrite Nat.add_0_r.
      change (nth i (map Commitment.nonce commitments) "")
        with (nth i (map Commitment.nonce commitments) (Commitment.nonce none)).
      rewrite map_nth. reflexivity.
    + cbn [nth]. rewrite Hrest by lia.
      replace (i + S j)%nat with (S i + j)%nat by lia. reflexivity.
Qed.

Lemma signatureShareLoop_short (message : string) (keyShares : KeyShareSet.t)
  (commitments : list Commitment.t) (count : nat) :
  forall i,
    (i + count <= List.length commitments)%nat ->
    (i <= List.length (KeyShareSet.shares keyShares))%nat ->
    (List.length (KeyShareSet.shares keyShares) < i + count)%nat ->
    signatureShareLoop message keyShares commitments i count
    = Raise (TypeError "Cannot read properties of undefined (reading 'value')").
Proof.
  set (none := {| Commitment.nonce := "";
                  Commitment.commitment := {| Point.x := ""; Point.y := "" |} |}).
  induction count as [ | count IH]; intros i Hcms Hi Hshort; [lia | ].
  cbn [signatureShareLoop].
  rewrite (nth_error_nth' commitments none) by lia. cbn [property bindR].
  destruct (Nat.eq_dec i (List.length (KeyShareSet.shares keyShares))) as [Heq | Hneq].
  - assert (Hnone : nth_error (KeyShareSet.shares keyShares) i = None)
      by (apply nth_error_None; lia).
    rewrite Hnone. reflexivity.
  - rewrite (nth_error_nth' (KeyShareSet.shares keyShares) noShare) by lia.
    cbn [property bindR]. rewrite IH by lia. reflexivity.
Qed.

Lemma combineSignatureShares_raised (message : string) (signatureShares : list Share.t)
  (commitments : list Point.t) (publicShares : list PublicShare.t) (threshold : Z)
  (tape : list byte) (e : exn) (tape' : list byte) :
  combineSignatureShares message signatureShares commitments publicShares threshold tape
  = Some (Raise e, tape') ->
  Z.of_nat (List.length signatureShares) < threshold.
Proof.
  unfold combineSignatureShares.
  destruct (Z.ltb_spec (Z.of_nat (List.length signatureShares)) threshold) as [Hlt | Hge];
    [intros _; exact Hlt | ].
  cbv zeta. unfold bind, ret.
  destruct (_generateRandomPrivateKey tape) as [[[drawn | e1] tape1] | ] eqn:Hdraw;
    try discriminate.
  exfalso. exact (generateRandomPrivateKey_never_throws _ _ _ Hdraw).
Qed.

Lemma participants_NoDup (n : Z) : NoDup (participants n).
Proof.
  unfold participants. apply NoDup_map_NoDup_ForallPairs; [ | apply seq_NoDup].
  intros a b _ _ Hab. apply Nat2Z.inj, Hab.
Qed.

Lemma nth_shares_of_participants (cs : list Z) (t : nat) (n : Z) (i : nat) :
  (i < Z.to_nat n)%nat ->
  nth i (map (shareOf cs t) (participants n)) noShare = shareOf cs t (Z.of_nat (S i)).
Proof.
  intros Hi.
  rewrite (nth_indep _ noShare (shareOf cs t 0))
    by (rewrite length_map, participants_length; exact Hi).
  rewrite map_nth. f_equal. unfold participants.
  change 0 with (Z.of_nat 0). rewrite map_nth, seq_nth by exact Hi. reflexivity.
Qed.

(** The signature shares of a session of the first [count] participants
    of a group, and what they combine to. *)
Lemma session_signature_shares (n t : Z) (tape : list byte) (ks : KeyShareSet.t)
  (tape1 : list byte) (message : string) (commitments : list Commitment.t)
  (count : nat) (signatureShares : list Share.t) :
  n <= 50 ->
  generateKeyShares n t tape = Some (Ok ks, tape1) ->
  (Z.to_nat t <= count <= Z.to_nat n)%nat ->
  List.length commitments = count ->
  Forall (fun c => 1 <= BN.ofHex (Commitment.nonce c) < ec.n) commitments ->
  signatureShareLoop message ks commitments 0 count = Ok signatureShares ->
  List.length signatureShares = count
  /\ (forall sh, In sh signatureShares ->
                 0 <= Share.index sh /\ 0 <= BN.ofHex (Share.value sh))
  /\ eqm ec.n
         (combineLoop signatureShares
            (_calculateLagrangeCoefficients (map Share.index signatureShares)))
         (Poly.sum (fun i => BN.ofHex (nth i (map Commitment.nonce commitments) "")
                             * BN.ofHex (nth i (_calculateLagrangeCoefficients
                                                  (participants (Z.of_nat count))) ""))
                   (seq 0 count)
          + BN.ofHex (_calculateBindingFactor (_hashMessage message)
                                              (map Commitment.commitment commitments))
            * groupSecret t tape).
Proof.
  intros Hn Hrun Hcount Hlen Hnonces Hloop. pose proof order_positive as Horder.
  destruct (generateKeyShares_returned _ _ _ _ _ Hrun)
    as (Hvalid & cs & _ & Hcs & Hrange & -> & Hshares & _).
  assert (Hsize : List.length (KeyShareSet.shares ks) = Z.to_nat n)
    by (rewrite Hshares, length_map; apply participants_length).
  destruct (signatureShareLoop_returns message ks commitments count 0%nat)
    as (sigs & Hsigs & Hsigs_len & Hpoint); [lia | lia | ].
  rewrite Hsigs in Hloop. injection Hloop as <-.
  set (sub := map (shareOf cs (List.length cs)) (participants (Z.of_nat count))).
  assert (Hsub_len : List.length sub = count).
  { unfold sub. rewrite length_map, participants_length. lia. }
  assert (Hsub_nth : forall i, (i < count)%nat ->
            nth i sub noShare = shareOf cs (List.length cs) (Z.of_nat (S i))
            /\ nth i (KeyShareSet.shares ks) noShare = nth i sub noShare).
  { intros i Hi. unfold sub. rewrite Hshares, Hcs.
    rewrite !nth_shares_of_participants by lia. split; reflexivity. }
  assert (Hsub_idx : map Share.index sub = participants (Z.of_nat count)).
  { unfold sub. rewrite map_map. cbn [shareOf Share.index]. apply map_id. }
  assert (Hshare_nonneg : forall i, 0 <= BN.ofHex (Share.value (shareOf cs (List.length cs) i))).
  { intros i. rewrite ofHex_shareOf. apply Z.mod_pos_bound. lia. }
  assert (Hnonce_nonneg : forall i, 0 <= BN.ofHex (nth i (map Commitment.nonce commitments) "")).
  { intros i.
    destruct (nth_in_or_default i (map Commitment.nonce commitments) "") as [Hin | ->];
      [ | cbn; lia].
    apply in_map_iff in Hin. destruct Hin as (c & <- & Hc).
    rewrite Forall_forall in Hnonces. specialize (Hnonces c Hc). lia. }
  assert (Hsig : forall i, (i < count)%nat ->
            Share.index (nth i sigs noShare) = Z.of_nat (S i)
            /\ BN.ofHex (Share.value (nth i sigs noShare))
               = (BN.ofHex (nth i (map Commitment.nonce commitments) "")
                  + BN.ofHex (_calculateBindingFactor
                                (_hashMessage message)
                                (map Commitment.commitment commitments))
                    * BN.ofHex (Share.value (nth i sub noShare))) mod ec.n).
  { intros i Hi. rewrite Hpoint by exact Hi. cbn [Nat.add].
    destruct (Hsub_nth i Hi) as [Hsh ->]. rewrite Hsh.
    split; [reflexivity | ].
    apply generateSignatureShare_scalar; [apply Hshare_nonneg | apply Hnonce_nonneg]. }
  split; [exact Hsigs_len | ]. split.
  - intros sh Hsh. destruct (In_nth _ _ noShare Hsh) as (i & Hi & <-).
    destruct (Hsig i) as [Hidx Hval]; [lia | ].
    rewrite Hidx, Hval. split; [lia | apply Z.mod_pos_bound; lia].
  - rewrite <- eval_zero, <- Hsub_idx, <- Hsub_len.
    apply (combineLoop_of_signature_shares cs sub sigs).
    + rewrite Hsub_idx. apply participants_NoDup.
    + apply participants_unitDifferences. intros x Hx. rewrite Hsub_idx in Hx.
      apply participants_range in Hx. lia.
    + lia.
    + intros sh Hsh. unfold sub in Hsh. apply in_map_iff in Hsh.
      destruct Hsh as (i & <- & _). rewrite ofHex_shareOf. apply Zmod_eqm.
    + lia.
    + intros i Hi. destruct (Hsig i) as [Hidx Hval]; [lia | ].
      destruct (Hsub_nth i) as [Hsh _]; [lia | ].
      split; [rewrite Hidx, Hsh; reflexivity | rewrite Hval; apply Zmod_eqm].
Qed.

(** The three steps of a signing session as the helpers of the tester
    run them: what a run that ends has done. *)
Lemma session_inv {B : Type} (F : Signature.t -> B) (keyShares : KeyShareSet.t)
  (message : string) (count : nat) (threshold : Z) (tape : list byte)
  (o : result B) (tape2 : list byte) :
  (commitments <- commitmentLoop (KeyShareSet.shares keyShares) 0 count ;;
   signatureShares <- liftR (signatureShareLoop message keyShares commitments 0 count) ;;
   combinedSignature <- combineSignatureShares
                          message signatureShares
                          (map Commitment.commitment commitments)
                          (KeyShareSet.publicShares keyShares) threshold ;;
   ret (F combinedSignature)) tape = Some (o, tape2) ->
  threshold <= Z.of_nat count ->
  (exists commitments tape1 signatureShares signature,
      commitmentLoop (KeyShareSet.shares keyShares) 0 count tape
      = Some (Ok commitments, tape1)
      /\ List.length commitments = count
      /\ Forall (fun c => 1 <= BN.ofHex (Commitment.nonce c) < ec.n) commitments
      /\ (count <= List.length (KeyShareSet.shares keyShares))%nat
      /\ signatureShareLoop message keyShares commitments 0 count = Ok signatureShares
      /\ combineSignatureShares message signatureShares
                                (map Commitment.commitment commitments)
                                (KeyShareSet.publicShares keyShares) threshold tape1
         = Some (Ok signature, tape2)
      /\ o = Ok (F signature))
  \/ o = Raise (TypeError "Cannot read properties of null (reading 'fromRed')")
  \/ (o = Raise (TypeError "Cannot read properties of undefined (reading 'value')")
      /\ (List.length (KeyShareSet.shares keyShares) < count)%nat).
Proof.
  intros Hrun Hthreshold. unfold bind at 1 in Hrun.
  destruct (commitmentLoop (KeyShareSet.shares keyShares) 0 count tape)
    as [[o1 tape1] | ] eqn:Hcommit; [ | discriminate].
  destruct (commitmentLoop_inv _ _ _ _ _ _ Hcommit) as [(cms & -> & Hlen & Hall) | ->].
  - unfold bind at 1, liftR in Hrun.
    destruct (le_lt_dec count (List.length (KeyShareSet.shares keyShares))) as [Hfits | Hshort].
    + destruct (signatureShareLoop_returns message keyShares cms count 0%nat)
        as (sigs & Hsigs & Hsigs_len & _); [lia | lia | ].
      rewrite Hsigs in Hrun. unfold bind, ret in Hrun.
      destruct (combineSignatureShares message sigs (map Commitment.commitment cms)
                  (KeyShareSet.publicShares keyShares) threshold tape1)
        as [[[sig | e] tape3] | ] eqn:Hcombine; [ | | discriminate].
      * injection Hrun as <- <-. left. exists cms, tape1, sigs, sig.
        repeat (split; [assumption || reflexivity | ]). reflexivity.
      * apply combineSignatureShares_raised in Hcombine. lia.
    + rewrite signatureShareLoop_short in Hrun by lia.
      injection Hrun as <- <-. right. right. split; [reflexivity | exact Hshort].
  - injection Hrun as <- <-. right. left. reflexivity.
Qed.

(** X13: the outcomes of [simulateInsufficientParticipants].  It never
    throws.  Below the threshold of the configuration it answers
    'Insufficient participants' by itself, without drawing a random byte
    and without calling [combineSignatureShares]; from the threshold on it
    succeeds only with no more participants than there are shares, and it
    fails only on a commitment at infinity or on a share that is missing:
    the error of [combineSignatureShares] for too few shares is never
    reported. *)
Theorem simulateInsufficientParticipants_outcomes :
  forall (keyShares : option KeyShareSet.t) (message : string) (participantCount : Z)
         (tape : list byte),
    match simulateInsufficientParticipants keyShares message participantCount tape with
    | Some (Raise _, _) => False
    | Some (Ok (Outcome.failure_reason reason), tape') =>
        reason = "Insufficient participants" /\ tape' = tape
        /\ keyShares <> None /\ participantCount < BYZANTINE_CONFIG.testThreshold
    | Some (Ok (Outcome.failure_error error), tape') =>
        (keyShares = None /\ error = "Key shares not available" /\ tape' = tape)
        \/ (exists ks,
               keyShares = Some ks
               /\ BYZANTINE_CONFIG.testThreshold <= participantCount
               /\ (error = "Cannot read properties of null (reading 'fromRed')"
                   \/ (error = "Cannot read properties of undefined (reading 'value')"
                       /\ Z.of_nat (List.length (KeyShareSet.shares ks))
                          < participantCount)))
    | Some (Ok (Outcome.success signature), _) =>
        BYZANTINE_CONFIG.testThreshold <= participantCount
        /\ exists ks, keyShares = Some ks
                      /\ participantCount <= Z.of_nat (List.length (KeyShareSet.shares ks))
    | None => keyShares <> None /\ BYZANTINE_CONFIG.testThreshold <= participantCount
    end.
Proof.
  intros keyShares message participantCount tape.
  unfold simulateInsufficientParticipants, tryCatch.
  destruct keyShares as [ks | ]; [ | cbn; left; repeat split].
  destruct (Z.ltb_spec participantCount BYZANTINE_CONFIG.testThreshold) as [Hlt | Hge].
  - cbn. repeat split; [discriminate | exact Hlt].
  - match goal with
    | |- match match ?body tape with _ => _ end with _ => _ end =>
        destruct (body tape) as [[o tape2] | ] eqn:Hrun
    end; [ | split; [discriminate | exact Hge]].
    apply (session_inv Outcome.success) in Hrun; [ | lia].
    destruct Hrun as [(cms & tape1 & sigs & sig & _ & _ & _ & Hfits & _ & _ & ->)
                     | [-> | [-> Hshort]]].
    + split; [exact Hge | ]. exists ks. split; [reflexivity | lia].
    + cbn. right. exists ks. split; [reflexivity | ].
      split; [exact Hge | left; reflexivity].
    + cbn. right. exists ks. split; [reflexivity | ].
      split; [exact Hge | right]. split; [reflexivity | lia].
Qed.

(** X14: a success of [simulateInsufficientParticipants] on the key
    shares of the tester (7 participants, threshold 4).  The number of
    participants lies between 4 and 7, and the combined scalar of the
    signature is, modulo the order, the sum of the nonces of the
    commitments weighted by the Lagrange coefficients of the participants
    plus the binding factor times the group secret; its sign is that of the
    parity of the number of participants. *)
Theorem simulateInsufficientParticipants_response :
  forall (tape : list byte) (ks : KeyShareSet.t) (tape1 : list byte) (message : string)
         (participantCount : Z) (signature : Signature.t) (tape2 : list byte),
    generateKeyShares BYZANTINE_CONFIG.testParticipants BYZANTINE_CONFIG.testThreshold tape
    = Some (Ok ks, tape1) ->
    simulateInsufficientParticipants (Some ks) message participantCount tape1
    = Some (Ok (Outcome.success signature), tape2) ->
    BYZANTINE_CONFIG.testThreshold <= participantCount <= BYZANTINE_CONFIG.testParticipants
    /\ exists commitments tape',
        commitmentLoop (KeyShareSet.shares ks) 0 (Z.to_nat participantCount) tape1
        = Some (Ok commitments, tape')
        /\ BN.umod (BN.ofHex (Signature.combined signature)) ec.n
           = (Poly.sum
                (fun i => BN.ofHex (nth i (map Commitment.nonce commitments) "")
                          * BN.ofHex (nth i (_calculateLagrangeCoefficients
                                               (participants participantCount)) ""))
                (seq 0 (Z.to_nat participantCount))
              + BN.ofHex (_calculateBindingFactor
                            (_hashMessage message)
                            (map Commitment.commitment commitments))
                * groupSecret BYZANTINE_CONFIG.testThreshold tape) mod ec.n
        /\ 0 <= sign (Z.to_nat participantCount) * BN.ofHex (Signature.combined signature).
Proof.
  intros tape ks tape1 message participantCount signature tape2 Hkeys Hrun.
  unfold simulateInsufficientParticipants, tryCatch in Hrun.
  destruct (Z.ltb_spec participantCount BYZANTINE_CONFIG.testThreshold) as [Hlt | Hge];
    [discriminate | ].
  match type of Hrun with
  | match ?body tape1 with _ => _ end = _ =>
      destruct (body tape1) as [[o tape3] | ] eqn:Hbody; [ | discriminate]
  end.
  apply (session_inv Outcome.success) in Hbody; [ | lia].
  destruct Hbody as [(cms & tape' & sigs & sig & Hcommit & Hlen & Hall & Hfits & Hsigs
                      & Hcombine & ->)
                    | [-> | [-> _]]]; try discriminate.
  injection Hrun as -> ->.
  assert (Hsize : List.length (KeyShareSet.shares ks)
                  = Z.to_nat BYZANTINE_CONFIG.testParticipants).
  { destruct (generateKeyShares_returned _ _ _ _ _ Hkeys)
      as (_ & cs & _ & _ & _ & _ & -> & _).
    rewrite length_map. apply participants_length. }
  assert (Hconfig : BYZANTINE_CONFIG.testThreshold = 4
                    /\ BYZANTINE_CONFIG.testParticipants = 7) by (split; reflexivity).
  split; [lia | ]. exists cms, tape'. split; [exact Hcommit | ].
  destruct (session_signature_shares
              BYZANTINE_CONFIG.testParticipants BYZANTINE_CONFIG.testThreshold
              tape ks tape1 message cms (Z.to_nat participantCount) sigs)
    as (Hsigs_len & Hnonneg & Hsum);
    [lia | exact Hkeys | lia | exact Hlen | exact Hall | exact Hsigs | ].
  apply combineSignatureShares_returns in Hcombine.
  destruct Hcombine as (_ & drawn & _ & ->). cbv zeta. cbn [Signature.combined].
  rewrite ofHex_toString16. split.
  - unfold BN.umod. rewrite Z2Nat.id in Hsum by lia. exact Hsum.
  - rewrite <- Hsigs_len. apply combineLoop_sign_of_shares, Hnonneg.
Qed.

Lemma simulateInsufficientParticipants_response_witness :
  BYZANTINE_CONFIG.testThreshold <= 5 <= BYZANTINE_CONFIG.testParticipants
  /\ exists commitments tape',
      commitmentLoop (KeyShareSet.shares keys_4_of_7) 0 (Z.to_nat 5) tape_session_5
      = Some (Ok commitments, tape')
      /\ BN.umod (BN.ofHex (Signature.combined signature_5_of_7)) ec.n
         = (Poly.sum
              (fun i => BN.ofHex (nth i (map Commitment.nonce commitments) "")
                        * BN.ofHex (nth i (_calculateLagrangeCoefficients
                                             (participants 5)) ""))
              (seq 0 (Z.to_nat 5))
            + BN.ofHex (_calculateBindingFactor
                          (_hashMessage "test")
                          (map Commitment.commitment commitments))
              * groupSecret BYZANTINE_CONFIG.testThreshold
                            (tape_4_of_7 ++ tape_session_5)) mod ec.n
      /\ 0 <= sign (Z.to_nat 5) * BN.ofHex (Signature.combined signature_5_of_7).
Proof.
  apply (simulateInsufficientParticipants_response
           (tape_4_of_7 ++ tape_session_5) keys_4_of_7 tape_session_5 "test" 5
           signature_5_of_7 []);
    vm_compute; reflexivity.
Defined.

(** X15: a signature returned by [generateValidSignature] on the key
    shares of the tester.  Its combined scalar is, modulo the order, the
    sum of the four nonces weighted by the Lagrange coefficients of the
    indices 1 to 4 plus the binding factor times the group secret; the
    threshold 4 being even, the scalar is never positive, and [r] is the
    padding of its signed string. *)
Theorem generateValidSignature_response :
  forall (tape : list byte) (ks : KeyShareSet.t) (tape1 : list byte) (message : string)
         (signature : Signature.t) (tape2 : list byte),
    generateKeyShares BYZANTINE_CONFIG.testParticipants BYZANTINE_CONFIG.testThreshold tape
    = Some (Ok ks, tape1) ->
    generateValidSignature (Some ks) message tape1 = Some (Ok (Some signature), tape2) ->
    exists commitments tape',
      commitmentLoop (KeyShareSet.shares ks) 0 (Z.to_nat BYZANTINE_CONFIG.testThreshold)
                     tape1
      = Some (Ok commitments, tape')
      /\ BN.umod (BN.ofHex (Signature.combined signature)) ec.n
         = (Poly.sum
              (fun i => BN.ofHex (nth i (map Commitment.nonce commitments) "")
                        * BN.ofHex (nth i (_calculateLagrangeCoefficients [1; 2; 3; 4]) ""))
              (seq 0 4)
            + BN.ofHex (_calculateBindingFactor
                          (_hashMessage message)
                          (map Commitment.commitment commitments))
              * groupSecret BYZANTINE_CONFIG.testThreshold tape) mod ec.n
      /\ BN.ofHex (Signature.combined signature) <= 0
      /\ Signature.r signature
         = JsString.padStart 64 "0" (Signature.combined signature).
Proof.
  intros tape ks tape1 message signature tape2 Hkeys Hrun.
  unfold generateValidSignature, tryCatch in Hrun.
  match type of Hrun with
  | match ?body tape1 with _ => _ end = _ =>
      destruct (body tape1) as [[o tape3] | ] eqn:Hbody; [ | discriminate]
  end.
  apply (session_inv Some) in Hbody; [ | unfold BYZANTINE_CONFIG.testThreshold; lia].
  destruct Hbody as [(cms & tape' & sigs & sig & Hcommit & Hlen & Hall & Hfits & Hsigs
                      & Hcombine & ->)
                    | [-> | [-> _]]]; try discriminate.
  injection Hrun as -> ->.
  exists cms, tape'. split; [exact Hcommit | ].
  destruct (session_signature_shares
              BYZANTINE_CONFIG.testParticipants BYZANTINE_CONFIG.testThreshold
              tape ks tape1 message cms (Z.to_nat BYZANTINE_CONFIG.testThreshold) sigs)
    as (Hsigs_len & Hnonneg & Hsum);
    [unfold BYZANTINE_CONFIG.testParticipants; lia | exact Hkeys
     | unfold BYZANTINE_CONFIG.testParticipants, BYZANTINE_CONFIG.testThreshold; lia
     | exact Hlen | exact Hall | exact Hsigs | ].
  pose proof (combineLoop_sign_of_shares sigs Hnonneg) as [Hsign _].
  rewrite Hsigs_len in Hsign.
  apply combineSignatureShares_returns in Hcombine.
  destruct Hcombine as (_ & drawn & _ & ->). cbv zeta.
  cbn [Signature.combined Signature.r].
  rewrite ofHex_toString16. split; [exact Hsum | ].
  split; [ | reflexivity].
  change (sign (Z.to_nat BYZANTINE_CONFIG.testThreshold)) with (-1) in Hsign. lia.
Qed.

Lemma generateValidSignature_response_witness :
  exists commitments tape',
    commitmentLoop (KeyShareSet.shares keys_4_of_7) 0
                   (Z.to_nat BYZANTINE_CONFIG.testThreshold) tape_session_4
    = Some (Ok commitments, tape')
    /\ BN.umod (BN.ofHex (Signature.combined signature_4_of_7)) ec.n
       = (Poly.sum
            (fun i => BN.ofHex (nth i (map Commitment.nonce commitments) "")
                      * BN.ofHex (nth i (_calculateLagrangeCoefficients [1; 2; 3; 4]) ""))
            (seq 0 4)
          + BN.ofHex (_calculateBindingFactor
                        (_hashMessage "test")
                        (map Commitment.commitment commitments))
            * groupSecret BYZANTINE_CONFIG.testThreshold
                          (tape_4_of_7 ++ tape_session_4)) mod ec.n
    /\ BN.ofHex (Signature.combined signature_4_of_7) <= 0
    /\ Signature.r signature_4_of_7
       = JsString.padStart 64 "0" (Signature.combined signature_4_of_7).
Proof.
  apply (generateValidSignature_response
           (tape_4_of_7 ++ tape_session_4) keys_4_of_7 tape_session_4 "test"
           signature_4_of_7 []);
    vm_compute; reflexivity.
Defined.
